(** * Symphony Local: the spectrogram player and the local file scanner

    A shallow embedding of [MainPlayer.tsx] (colour map, live waterfall,
    calibration sweep, snapshot export) and of [services/localService.ts]
    (the MP3 filter of the folder scanner), with the properties the
    specification states about them.

    Numbers: JavaScript numbers are IEEE doubles.  Every quantity below is
    modelled as an exact integer ([Z], [nat]) or an exact rational ([Q]).
    For the colour map, whose entries depend on [Math.round] and on
    comparisons against the key positions, a margin lemma shows that the
    exact values are far from every decision boundary. *)

From Stdlib Require Import ZArith QArith Qround Qabs Lia Ascii String.
From Stdlib Require Import Sorting.Sorted Sorting.Permutation.
From Stdlib Require Import Lqa Qminmax OrderedTypeEx.
From stdpp Require Import base tactics option list gmap pretty.
From Equations Require Import Equations.

Local Open Scope Z_scope.

(** ** Rational helpers shared by the renderers *)

(** [Math.round]: the integer nearest to [x], ties towards plus infinity. *)
Definition Math_round (x : Q) : Z := Qfloor (x + (1 # 2))%Q.

(** [Math.floor]. *)
Definition Math_floor (x : Q) : Z := Qfloor x.

(** [const FREQ_MAX = 12000], shared by both renderers and the sweep. *)
Definition FREQ_MAX : Z := 12000.

(** ** The colour map ([generateBirdSongColormap]) *)

Module Colormap.

(** A key point of the gradient: [{ pos, color: [r, g, b, a] }]. *)
Record KeyPoint := mkKey { pos : Q; color : list Z }.

(** [c[k]] for a colour array; the generator only reads indices 0..2 of
    four-element arrays. *)
Definition chan (c : list Z) (k : nat) : Z := nth k c 0.

Definition keyPoints : list KeyPoint :=
  [ mkKey 0 [0; 0; 0; 1];
    mkKey (15 # 100) [20; 0; 60; 1];
    mkKey (4 # 10) [140; 0; 160; 1];
    mkKey (7 # 10) [255; 100; 0; 1];
    mkKey 1 [255; 255; 255; 1] ].

Definition first_key (kps : list KeyPoint) : KeyPoint :=
  hd (mkKey 0 []) kps.
Definition last_key (kps : list KeyPoint) : KeyPoint :=
  List.last kps (mkKey 0 []).

(** The inner [for j] loop with its [break]: scan the adjacent pairs from
    the left and stop at the first one that contains [ratio]; [dflt] is the
    value of [(start, end)] before the loop. *)
Fixpoint scan (ratio : Q) (kps : list KeyPoint) (dflt : KeyPoint * KeyPoint)
  : KeyPoint * KeyPoint :=
  match kps with
  | k0 :: ((k1 :: _) as rest) =>
      if Qle_bool (pos k0) ratio && Qle_bool ratio (pos k1)
      then (k0, k1)
      else scan ratio rest dflt
  | _ => dflt
  end.

(** One channel: [Math.round(start.color[k] + (end.color[k] - start.color[k]) * rangeRatio)]. *)
Definition mix (s e : Z) (rangeRatio : Q) : Z :=
  Math_round (inject_Z s + inject_Z (e - s) * rangeRatio)%Q.

(** The body of the outer loop for table index [i]. *)
Definition entry (kps : list KeyPoint) (i : Z) : Z * Z * Z :=
  let ratio := (inject_Z i / 255)%Q in
  let '(start, end_) := scan ratio kps (first_key kps, last_key kps) in
  let range := (pos end_ - pos start)%Q in
  let rangeRatio :=
    if Qeq_bool range 0 then 0%Q else ((ratio - pos start) / range)%Q in
  (mix (chan (color start) 0) (chan (color end_) 0) rangeRatio,
   mix (chan (color start) 1) (chan (color end_) 1) rangeRatio,
   mix (chan (color start) 2) (chan (color end_) 2) rangeRatio).

(** [for (let i = 0; i < 256; i++) colormap.push(...)]. *)
Fixpoint push_entries (kps : list KeyPoint) (n : nat) (i : Z)
  (colormap : list (Z * Z * Z)) : list (Z * Z * Z) :=
  match n with
  | O => colormap
  | S n' => push_entries kps n' (i + 1) (colormap ++ [entry kps i])
  end.

Definition generateBirdSongColormap : list (Z * Z * Z) :=
  push_entries keyPoints 256 0 [].

(** *** The specification's reference definition *)

(** The adjacent key-point intervals, left to right. *)
Definition intervals (kps : list KeyPoint) : list (KeyPoint * KeyPoint) :=
  zip kps (tail kps).

Definition contains (ratio : Q) (iv : KeyPoint * KeyPoint) : bool :=
  Qle_bool (pos (fst iv)) ratio && Qle_bool ratio (pos (snd iv)).

Definition clamp255 (z : Z) : Z := Z.max 0 (Z.min 255 z).

(** The exact (unrounded) value of channel [k] on the interval [iv]. *)
Definition lerp (iv : KeyPoint * KeyPoint) (ratio : Q) (k : nat) : Q :=
  (inject_Z (chan (color (fst iv)) k)
   + inject_Z (chan (color (snd iv)) k - chan (color (fst iv)) k)
     * ((ratio - pos (fst iv)) / (pos (snd iv) - pos (fst iv))))%Q.

(** Reference entry: first interval that contains [i/255], each channel
    interpolated linearly, rounded to nearest, clamped to [0,255]. *)
Definition reference_entry (kps : list KeyPoint) (i : Z) : option (Z * Z * Z) :=
  let ratio := (inject_Z i / 255)%Q in
  match List.find (contains ratio) (intervals kps) with
  | Some iv =>
      Some (clamp255 (Math_round (lerp iv ratio 0)),
            clamp255 (Math_round (lerp iv ratio 1)),
            clamp255 (Math_round (lerp iv ratio 2)))
  | None => None
  end.

Definition valid_rgb (c : Z * Z * Z) : Prop :=
  let '(r, g, b) := c in
  0 <= r <= 255 /\ 0 <= g <= 255 /\ 0 <= b <= 255.

(** [z] is an integer nearest to [x]. *)
Definition nearest (z : Z) (x : Q) : Prop :=
  (Qabs (inject_Z z - x) <= 1 # 2)%Q.

(** Distance of [x] from the nearest rounding tie (a value whose
    fractional part is one half). *)
Definition tie_distance (x : Q) : Q :=
  Qabs (x - inject_Z (Qfloor x) - (1 # 2))%Q.

(** The key points are usable: adjacent positions strictly increase and
    every channel is a byte. *)
Definition increasing (kps : list KeyPoint) : Prop :=
  Forall (fun iv => (pos (fst iv) < pos (snd iv))%Q) (intervals kps).

Definition colours_ok (kps : list KeyPoint) : Prop :=
  Forall (fun k => forall c, 0 <= chan (color k) c <= 255) kps.

Definition rgb_of (k : KeyPoint) : Z * Z * Z :=
  (chan (color k) 0, chan (color k) 1, chan (color k) 2).

End Colormap.

(** ** A small state-and-failure monad for the imperative code *)

Definition M (S A : Type) : Type := S -> option (A * S).

Definition ret {S A} (a : A) : M S A := fun s => Some (a, s).
Definition bind {S A B} (m : M S A) (k : A -> M S B) : M S B :=
  fun s => match m s with
           | Some (a, s') => k a s'
           | None => None
           end.
Definition throw {S A} : M S A := fun _ => None.
Definition get {S} : M S S := fun s => Some (s, s).
Definition modify {S} (f : S -> S) : M S unit := fun s => Some (tt, f s).

Declare Scope prog_scope.
Delimit Scope prog_scope with prog.
Notation "'let*' x ':=' m 'in' k" := (bind m (fun x => k))
  (at level 10, x name, m at level 100, k at level 200, only parsing)
  : prog_scope.
Notation "m ';;' k" := (bind m (fun _ => k))
  (at level 100, k at level 200, right associativity, only parsing) : prog_scope.

(** [for (let i = start; i < start + n; i++) body(i)]. *)
Fixpoint for_loop {S} (n : nat) (i : Z) (body : Z -> M S unit) : M S unit :=
  match n with
  | O => ret tt
  | S n' => bind (body i) (fun _ => for_loop n' (i + 1) body)
  end.

(** ** The 2D canvas *)

Module Canvas.

Definition rgb : Type := Z * Z * Z.
Definition black : rgb := (0, 0, 0).

(** An opaque ([alpha: false]) canvas with its 2D context: the [width] and
    [height] attributes, the current [fillStyle] and the backing bitmap,
    stored as a list of pixel columns (left to right), each a list of
    pixels (top to bottom). *)
Record Context2D := mkCtx {
  width : nat;
  height : nat;
  fillStyle : rgb;
  bitmap : list (list rgb)
}.

Record ImageData := mkImage {
  iwidth : nat;
  iheight : nat;
  idata : list (list rgb)
}.

Definition set_bitmap (bm : list (list rgb)) (c : Context2D) : Context2D :=
  mkCtx (width c) (height c) (fillStyle c) bm.
Definition set_fillStyle (col : rgb) (c : Context2D) : Context2D :=
  mkCtx (width c) (height c) col (bitmap c).

(** The bitmap really has the dimensions the attributes announce. *)
Definition well_formed (c : Context2D) : Prop :=
  length (bitmap c) = width c /\
  Forall (fun col => length col = height c) (bitmap c).

(** Pixel at column [c], row [r]; outside the bitmap a read yields
    transparent black. *)
Definition pixel (bm : list (list rgb)) (c r : Z) : rgb :=
  if (c <? 0) || (r <? 0) then black
  else default black (bm !! Z.to_nat c ≫= fun col => col !! Z.to_nat r).

(** [ctx.getImageData(sx, sy, sw, sh)]: a copy of the rectangle.  A zero
    width or height raises [IndexSizeError]; negative sizes do not occur
    for a canvas at least one pixel wide and are reported as a failure
    too. *)
Definition getImageData (sx sy sw sh : Z) : M Context2D ImageData :=
  fun ctx =>
    if (sw <=? 0) || (sh <=? 0) then None
    else Some (mkImage (Z.to_nat sw) (Z.to_nat sh)
                 ((fun c => (fun r => pixel (bitmap ctx) (sx + c) (sy + r))
                              <$> seqZ 0 sh) <$> seqZ 0 sw),
               ctx).

(** [ctx.putImageData(img, dx, dy)]: overwrite the rectangle at
    [(dx, dy)], clipped to the canvas; [fillStyle] plays no part. *)
Definition putImageData (img : ImageData) (dx dy : Z) : M Context2D unit :=
  modify (fun ctx =>
    set_bitmap
      (imap (fun c col =>
         imap (fun r old =>
           let c' := Z.of_nat c - dx in
           let r' := Z.of_nat r - dy in
           if (0 <=? c') && (c' <? Z.of_nat (iwidth img))
              && (0 <=? r') && (r' <? Z.of_nat (iheight img))
           then pixel (idata img) c' r' else old) col) (bitmap ctx))
      ctx).

(** Length of the part of pixel row [r] (the interval [[r, r+1)]) covered
    by the vertical extent of a rectangle from [y] to [y + h]. *)
Definition coverage (y h : Q) (r : nat) : Q :=
  let top := Qmin y (y + h) in
  let bottom := Qmax y (y + h) in
  Qmax 0 (Qmin bottom (inject_Z (Z.of_nat r) + 1)
          - Qmax top (inject_Z (Z.of_nat r)))%Q.

(** Source-over compositing of an opaque colour with coverage [a] onto an
    opaque pixel.  Coverage 1 replaces the pixel, coverage 0 keeps it; the
    value on a partly covered (anti-aliased) pixel is the rasteriser's
    business and no property below depends on it. *)
Definition blend (old new : rgb) (a : Q) : rgb :=
  let '(r0, g0, b0) := old in
  let '(r1, g1, b1) := new in
  (Math_round (inject_Z r0 + inject_Z (r1 - r0) * a)%Q,
   Math_round (inject_Z g0 + inject_Z (g1 - g0) * a)%Q,
   Math_round (inject_Z b0 + inject_Z (b1 - b0) * a)%Q).

(** Paint one column with the colour [col'] over the rows [y .. y + h]. *)
Definition fill_band (col' : rgb) (y h : Q) (column : list rgb) : list rgb :=
  imap (fun r old => blend old col' (coverage y h r)) column.

(** [ctx.fillRect(x, y, w, h)] with integral [x] and [w] (the renderer
    only ever passes [canvas.width - 1] and [1]) and fractional [y], [h]. *)
Definition fillRect (x : Z) (y : Q) (w : Z) (h : Q) : M Context2D unit :=
  modify (fun ctx =>
    set_bitmap
      (imap (fun c column =>
         if (x <=? Z.of_nat c) && (Z.of_nat c <? x + w)
         then fill_band (fillStyle ctx) y h column
         else column) (bitmap ctx))
      ctx).

Definition setFillStyle (col : rgb) : M Context2D unit :=
  modify (set_fillStyle col).

(** A freshly attached canvas after [fillRect(0, 0, width, height)] in
    black. *)
Definition blank (w h : nat) : Context2D :=
  mkCtx w h black (replicate w (replicate h black)).

End Canvas.

(** ** The live waterfall ([renderLive]) and the static spectrogram options *)

Module Waterfall.
Import Canvas.
Local Open Scope prog_scope.

(** What one animation frame reads from its surroundings: the analyser's
    byte frequency data ([Uint8Array] of [frequencyBinCount] entries) and
    the sample rate of the audio context. *)
Record Frame := mkFrame {
  dataArray : list Z;
  sampleRate : Q
}.

(** What the effect owns: the canvas context and the [signalLevel] state
    ([None] stands for [NaN]). *)
Record Live := mkLive {
  ctx : Context2D;
  signalLevel : option Q
}.

Definition on_ctx {A} (m : M Context2D A) : M Live A :=
  fun s => match m (ctx s) with
           | Some (a, c') => Some (a, mkLive c' (signalLevel s))
           | None => None
           end.

Definition setSignalLevel (v : option Q) : M Live unit :=
  modify (fun s => mkLive (ctx s) v).

Definition nyquist (f : Frame) : Q := (sampleRate f / 2)%Q.

(** [analyzer.frequencyBinCount]. *)
Definition bufferLength (f : Frame) : Z := Z.of_nat (length (dataArray f)).

(** [Math.floor((FREQ_MAX / nyquist) * bufferLength)]. *)
Definition maxFreqIndex (f : Frame) : Z :=
  Math_floor ((inject_Z FREQ_MAX / nyquist f) * inject_Z (bufferLength f))%Q.

(** [let sum = 0; for (i < 50) sum += dataArray[i]]: reading past the end
    of the array adds [undefined] and makes the sum [NaN]. *)
Definition sum50 (data : list Z) : option Z :=
  foldl (fun acc i => match acc, data !! i with
                      | Some a, Some v => Some (a + v)
                      | _, _ => None
                      end) (Some 0) (seq 0 50).

(** A [Uint8Array] holds bytes. *)
Definition byte_data (data : list Z) : Prop :=
  Forall (fun v => 0 <= v <= 255) data.

(** Lower edge and thickness of the band of bin [i]. *)
Definition band_y (cheight : nat) (m i : Z) : Q :=
  (inject_Z (Z.of_nat cheight)
   - (inject_Z i / inject_Z m) * inject_Z (Z.of_nat cheight))%Q.
Definition band_height (cheight : nat) (m : Z) : Q :=
  (inject_Z (Z.of_nat cheight) / inject_Z m + 1)%Q.

(** The body of the drawing loop.  [dataArray[i]] past the end is
    [undefined] and [undefined > 0] is false; [colormap[value]] is always
    defined for a byte, the failure branch is the [TypeError] of
    destructuring [undefined]. *)
Definition draw_bin (colormap : list rgb) (f : Frame) (x : Z) (i : Z)
  : M Live unit :=
  match dataArray f !! Z.to_nat i with
  | Some value =>
      if 0 <? value then
        match colormap !! Z.to_nat value with
        | Some c =>
            let* c0 := get in
            let cheight := height (ctx c0) in
            on_ctx (setFillStyle c) ;;
            let y := band_y cheight (maxFreqIndex f) i in
            let h := band_height cheight (maxFreqIndex f) in
            on_ctx (fillRect x (y - h) 1 h)
        | None => throw
        end
      else ret tt
  | None => ret tt
  end.

(** One call of [renderLive] (without the re-arming
    [requestAnimationFrame]). *)
Definition renderLive (colormap : list rgb) (f : Frame) : M Live unit :=
  let* c0 := get in
  let cwidth := Z.of_nat (width (ctx c0)) in
  let cheight := Z.of_nat (height (ctx c0)) in
  let* imageData := on_ctx (getImageData 1 0 (cwidth - 1) cheight) in
  on_ctx (putImageData imageData 0 0) ;;
  let x := cwidth - 1 in
  on_ctx (setFillStyle black) ;;
  on_ctx (fillRect x 0 1 (inject_Z cheight)) ;;
  setSignalLevel (option_map (fun s => (inject_Z s / 50)%Q) (sum50 (dataArray f))) ;;
  for_loop (Z.to_nat (maxFreqIndex f)) 0 (draw_bin colormap f x).

(** The animation loop: one [renderLive] per frame delivered. *)
Fixpoint run_frames (colormap : list rgb) (frames : list Frame) : M Live unit :=
  match frames with
  | [] => ret tt
  | f :: rest => renderLive colormap f ;; run_frames colormap rest
  end.

(** *** The tick as the specification words it *)

(** Step 3 on the fresh column: for every bin from 0 to [m] inclusive,
    paint its band when its magnitude is positive. *)
Definition paint_bin (colormap : list rgb) (data : list Z) (h : nat) (m : Z)
  (column : list rgb) (i : Z) : list rgb :=
  match data !! Z.to_nat i with
  | Some v =>
      if 0 <? v
      then fill_band (default black (colormap !! Z.to_nat v))
             (band_y h m i - band_height h m) (band_height h m) column
      else column
  | None => column
  end.

Definition new_column (colormap : list rgb) (data : list Z) (h : nat) (m : Z)
  : list rgb :=
  foldl (paint_bin colormap data h m) (replicate h black) (seqZ 0 (m + 1)).


(** Some band of a positive bin touches pixel row [r]. *)
Definition touched (data : list Z) (h : nat) (m : Z) (r : nat) : Prop :=
  exists i v, 0 <= i < m /\ data !! Z.to_nat i = Some v /\ 0 < v /\
    (0 < coverage (band_y h m i - band_height h m) (band_height h m) r)%Q.

(** *** Frequency axis *)

(** The frequency drawn at the top edge of the live canvas: bin
    [maxFreqIndex] would sit at [y = 0], and bin [i] holds the frequency
    [i * nyquist / bufferLength]. *)
Definition live_axis_top (f : Frame) : Q :=
  (inject_Z (maxFreqIndex f) * nyquist f / inject_Z (bufferLength f))%Q.

(** The upper bound the specification describes. *)
Definition clamped_axis_top (f : Frame) : Q :=
  Qmin (inject_Z FREQ_MAX) (nyquist f).

(** The loop bound the live renderer would have if the upper bound of its
    axis were [min(FREQ_MAX, nyquist)]. *)
Definition clamped_maxFreqIndex (f : Frame) : Z :=
  Math_floor ((clamped_axis_top f / nyquist f) * inject_Z (bufferLength f))%Q.

(** The options [initWaveSurfer] passes to [Spectrogram.create]. *)
Record SpectrogramOptions := mkOptions {
  labels : bool;
  optHeight : Z;
  splitChannels : bool;
  frequencyMin : Z;
  frequencyMax : Z;
  colorMap : list (Q * Q * Q * Q)
}.

Definition spectrogramOptions : SpectrogramOptions :=
  mkOptions false 320 false 0 FREQ_MAX
    (map (fun '(r, g, b) =>
            (inject_Z r / 255, inject_Z g / 255, inject_Z b / 255, 1)%Q)
       Colormap.generateBirdSongColormap).

(** *** Sample inputs *)

(** A 3 x 4 canvas with distinguishable pixels and a four-bin frame at
    48 kHz (so [maxFreqIndex = 2]). *)
Definition sample_canvas : Context2D :=
  mkCtx 3 4 (9, 9, 9)
    [ [(1, 1, 1); (1, 1, 2); (1, 1, 3); (1, 1, 4)];
      [(2, 1, 1); (2, 1, 2); (2, 1, 3); (2, 1, 4)];
      [(3, 1, 1); (3, 1, 2); (3, 1, 3); (3, 1, 4)] ].

Definition sample_frame : Frame := mkFrame [100; 255; 7; 7] 48000.

(** A 1024-bin frame of silence from an audio context running at 16 kHz
    (a narrow-band capture device): its Nyquist frequency, 8000 Hz, is
    below [FREQ_MAX]. *)
Definition narrowband_frame : Frame := mkFrame (replicate 1024 0) 16000.

End Waterfall.

(** ** The calibration sweep ([runLiveCalibration]) *)

Module Calibration.

(** Nodes of the audio graph.  The destination and the analyser of the
    live path exist once; every sweep creates a fresh oscillator and a
    fresh gain stage. *)
Inductive node :=
  | Destination
  | Analyser
  | Oscillator (id : nat)
  | Gain (id : nat).

#[global] Instance node_eq_dec : EqDecision node.
Proof. solve_decision. Defined.

Definition node_code (n : node) : nat * nat :=
  match n with
  | Destination => (0, 0)
  | Analyser => (1, 0)
  | Oscillator i => (2, i)
  | Gain i => (3, i)
  end%nat.

Definition node_decode (c : nat * nat) : node :=
  match c with
  | (0, _) => Destination
  | (1, _) => Analyser
  | (2, i) => Oscillator i
  | (_, i) => Gain i
  end%nat.

#[global] Instance node_countable : Countable node.
Proof.
  apply (inj_countable' node_code node_decode). by intros [].
Defined.

Inductive ContextState := Suspended | Running.

(** An [OscillatorNode]: its wave form, the [setValueAtTime] events of its
    frequency parameter in scheduling order, and its start and stop times
    on the audio clock. *)
Record Osc := mkOsc {
  oscType : string;
  frequencyEvents : list (Z * Q);
  startAt : option Q;
  stopAt : option Q
}.

(** The process-wide [AudioContext]: run state, audio clock (seconds),
    the nodes created so far and the connections between them. *)
Record AudioContext := mkAudio {
  ctxState : ContextState;
  currentTime : Q;
  nextNode : nat;
  oscillators : gmap nat Osc;
  gains : gmap nat Q;
  connections : gset (node * node)
}.

(** A pending timer of the host, with the variables its callback closes
    over: the interval callback owns [currentStep]; the timeout callback
    knows the id of the interval it has to clear.  Fire times are wall
    clock milliseconds. *)
Inductive Timer :=
  | Interval (fireAt period : Q) (currentStep : Z)
  | Timeout (fireAt : Q) (interval : nat).

Definition fire_time (t : Timer) : Q :=
  match t with
  | Interval a _ _ => a
  | Timeout a _ => a
  end.

(** The part of the component the sweep touches. *)
Record Player := mkPlayer {
  audioCtxRef : option AudioContext;
  analyzerRef : bool;          (* [analyzerRef.current] is set *)
  isCalibrating : bool;
  calibFreq : Z;
  timers : gmap nat Timer;
  nextTimer : nat;
  now : Q
}.

Definition setIsCalibrating (b : bool) (p : Player) : Player :=
  mkPlayer (audioCtxRef p) (analyzerRef p) b (calibFreq p) (timers p)
    (nextTimer p) (now p).
Definition setCalibFreq (v : Z) (p : Player) : Player :=
  mkPlayer (audioCtxRef p) (analyzerRef p) (isCalibrating p) v (timers p)
    (nextTimer p) (now p).
Definition set_ctx (c : AudioContext) (p : Player) : Player :=
  mkPlayer (Some c) (analyzerRef p) (isCalibrating p) (calibFreq p) (timers p)
    (nextTimer p) (now p).
Definition set_timers (t : gmap nat Timer) (p : Player) : Player :=
  mkPlayer (audioCtxRef p) (analyzerRef p) (isCalibrating p) (calibFreq p) t
    (nextTimer p) (now p).
Definition set_now (t : Q) (p : Player) : Player :=
  mkPlayer (audioCtxRef p) (analyzerRef p) (isCalibrating p) (calibFreq p)
    (timers p) (nextTimer p) t.

(** [setInterval] / [setTimeout]: register and return the fresh id. *)
Definition add_timer (t : Timer) (p : Player) : nat * Player :=
  (nextTimer p,
   mkPlayer (audioCtxRef p) (analyzerRef p) (isCalibrating p) (calibFreq p)
     (<[nextTimer p := t]> (timers p)) (S (nextTimer p)) (now p)).

Definition clearInterval (id : nat) (p : Player) : Player :=
  set_timers (delete id (timers p)) p.

(** [ctx.resume()]. *)
Definition resume (c : AudioContext) : AudioContext :=
  mkAudio Running (currentTime c) (nextNode c) (oscillators c) (gains c)
    (connections c).

(** [a.connect(b)]. *)
Definition connect (a b : node) (c : AudioContext) : AudioContext :=
  mkAudio (ctxState c) (currentTime c) (nextNode c) (oscillators c) (gains c)
    ({[ (a, b) ]} ∪ connections c).

(** The ramp loop
    [for (let freq = 10; freq <= FREQ_MAX; freq += 200) {
       osc.frequency.setValueAtTime(freq, startTime + stepCount * stepDuration);
       stepCount++ }];
    the result is the final [stepCount] and the events scheduled. *)
Equations? ramp (startTime stepDuration : Q) (freq stepCount : Z)
  (events : list (Z * Q)) : Z * list (Z * Q)
  by wf (Z.to_nat (FREQ_MAX + 200 - freq)) lt :=
  ramp startTime stepDuration freq stepCount events with Z_le_dec freq FREQ_MAX := {
    | left _ =>
        ramp startTime stepDuration (freq + 200) (stepCount + 1)
          (events ++ [(freq, (startTime + inject_Z stepCount * stepDuration)%Q)]);
    | right _ => (stepCount, events) }.
Proof. unfold FREQ_MAX in *. lia. Qed.

(** [runLiveCalibration], one click on "Verify Scale". *)
Definition runLiveCalibration (p : Player) : Player :=
  match audioCtxRef p with
  | None => p
  | Some ctx0 =>
      if isCalibrating p || negb (analyzerRef p) then p
      else
        let ctx1 := match ctxState ctx0 with
                    | Suspended => resume ctx0
                    | Running => ctx0
                    end in
        let p := setCalibFreq 10 (setIsCalibrating true p) in
        let osc := nextNode ctx1 in
        let gain := S (nextNode ctx1) in
        let startTime := (currentTime ctx1 + (1 # 10))%Q in
        let stepDuration := (1 # 20)%Q in
        let '(stepCount, events) := ramp startTime stepDuration 10 0 [] in
        let endTime := (startTime + inject_Z stepCount * stepDuration)%Q in
        let ctx2 :=
          connect (Gain gain) Analyser
            (connect (Gain gain) Destination
               (connect (Oscillator osc) (Gain gain)
                  (mkAudio (ctxState ctx1) (currentTime ctx1) (S (S (nextNode ctx1)))
                     (<[osc := mkOsc "sine" events (Some startTime) (Some endTime)]>
                        (oscillators ctx1))
                     (<[gain := (15 # 100)%Q]> (gains ctx1))
                     (connections ctx1)))) in
        let p := set_ctx ctx2 p in
        let '(interval, p) :=
          add_timer (Interval (now p + stepDuration * 1000) (stepDuration * 1000) 0) p in
        let '(_, p) :=
          add_timer (Timeout (now p + ((endTime - startTime) * 1000 + 100)) interval) p in
        p
  end.

(** The host fires timer [id]. *)
Definition fire (id : nat) (p : Player) : Player :=
  match timers p !! id with
  | Some (Interval fireAt period step) =>
      let p := set_now (Qmax (now p) fireAt) p in
      let currentStep := step + 1 in
      let p := set_timers
                 (<[id := Interval (fireAt + period) period currentStep]> (timers p)) p in
      let currentFreq := 10 + currentStep * 200 in
      if FREQ_MAX <? currentFreq then clearInterval id p
      else setCalibFreq currentFreq p
  | Some (Timeout fireAt interval) =>
      let p := set_now (Qmax (now p) fireAt) p in
      let p := set_timers (delete id (timers p)) p in
      clearInterval interval (setCalibFreq 0 (setIsCalibrating false p))
  | None => p
  end.

(** What can happen to the component: a click on the button, or the host
    firing one of the pending timers. *)
Inductive Event :=
  | Click
  | Fire (id : nat).

Definition handle (e : Event) (p : Player) : Player :=
  match e with
  | Click => runLiveCalibration p
  | Fire id => fire id p
  end.

Definition handle_all (es : list Event) (p : Player) : Player :=
  foldl (fun q e => handle e q) p es.

(** States after each event of a run, in order. *)
Fixpoint states_of (es : list Event) (p : Player) : list Player :=
  match es with
  | [] => []
  | e :: rest => handle e p :: states_of rest (handle e p)
  end.

(** The timer the host fires next when it is on time: the earliest fire
    time, the older timer first on a tie. *)
Definition earlier (a b : nat * Timer) : nat * Timer :=
  if Qle_bool (fire_time (snd a)) (fire_time (snd b)) then a else b.

Definition next_timer (p : Player) : option nat :=
  match map_to_list (timers p) with
  | [] => None
  | t :: ts => Some (fst (foldl earlier t ts))
  end.

(** The punctual event loop: fire timers in order until none is left. *)
Fixpoint run_timers (fuel : nat) (p : Player) : list Event :=
  match fuel with
  | O => []
  | S fuel' =>
      match next_timer p with
      | Some id => Fire id :: run_timers fuel' (fire id p)
      | None => []
      end
  end.

(** What the status line shows: [calibFreq], while [isCalibrating]. *)
Definition displayed (p : Player) : option Z :=
  if isCalibrating p then Some (calibFreq p) else None.

Definition displayed_values (ps : list Player) : list Z :=
  omap displayed ps.

(** The component right after the microphone effect has run. *)
Definition fresh_context : AudioContext :=
  mkAudio Running 0 0 ∅ ∅ ∅.
Definition mounted : Player :=
  mkPlayer (Some fresh_context) true false 0 ∅ 0 0.

(** Reachable states. *)
Inductive reachable : Player -> Prop :=
  | reach_mounted : reachable mounted
  | reach_step p e : reachable p -> reachable (handle e p).

(** The step count the specification announces,
    [ceil((max - min) / step) + 1]. *)
Definition announced_steps (fmin fmax step : Z) : Z :=
  - ((- (fmax - fmin)) / step) + 1.

(** Number of iterations of the ramp loop entered with [freq]. *)
Definition trip_count (freq : Z) : Z :=
  if Z_le_dec freq FREQ_MAX then (FREQ_MAX - freq) / 200 + 1 else 0.

(** The events a sweep starting at audio time [st] schedules. *)
Definition ramp_events (st : Q) : list (Z * Q) :=
  (fun j => (10 + 200 * j, (st + inject_Z (0 + j) * (1 # 20))%Q)) <$> seqZ 0 60.

(** The [setValueAtTime] events of oscillator [osc]. *)
Definition scheduled_events (p : Player) (osc : nat) : list (Z * Q) :=
  match audioCtxRef p with
  | Some c => match oscillators c !! osc with
              | Some o => frequencyEvents o
              | None => []
              end
  | None => []
  end.

(** The first sweep, just started, and the events of its punctual run
    (the run ends because no timer is left, well before the fuel does). *)
Definition started : Player := runLiveCalibration mounted.
Definition punctual_run : list Event := run_timers 100 started.

(** While a sweep runs there are exactly its two timers (or only the
    timeout once the interval has cleared itself), and [calibFreq] is the
    frequency of the step the interval has counted. *)
Definition ticking (p : Player) (iid : nat) : Prop :=
  match timers p !! iid with
  | Some (Interval _ _ step) => 0 <= step <= 59 /\ calibFreq p = 10 + 200 * step
  | Some (Timeout _ _) => False
  | None => calibFreq p = 11810
  end.

Definition sweep_invariant (p : Player) : Prop :=
  if isCalibrating p then
    exists iid tid fireAt,
      iid <> tid /\
      timers p !! tid = Some (Timeout fireAt iid) /\
      (forall id, id <> iid -> id <> tid -> timers p !! id = None) /\
      ticking p iid
  else timers p = ∅.

End Calibration.

(** ** Files and tracks ([types.ts]) *)

Module DOM.

(** The part of a browser [File] the scanner reads. *)
Record File := mkFile {
  name : string;
  size : Z;
  type : string;
  webkitRelativePath : string
}.

End DOM.

Module Types.

(** [interface AudioFile]. *)
Record AudioFile := mkAudioFile {
  id : string;
  name : string;
  size : string;
  type : string;
  file : DOM.File;
  relativePath : string
}.

End Types.

(** ** The folder scanner ([processLocalFiles]) *)

Module LocalService.
Import Types.
Local Open Scope string_scope.

(** [String.prototype.toLowerCase] on the code units that matter for the
    suffix test: the letters A-Z.  No other character lower-cases to one
    of [.], [m], [p], [3]. *)
Definition lower_char (c : ascii) : ascii :=
  let n := nat_of_ascii c in
  if (65 <=? n)%nat && (n <=? 90)%nat then ascii_of_nat (n + 32) else c.

Fixpoint toLowerCase (s : string) : string :=
  match s with
  | EmptyString => EmptyString
  | String c rest => String (lower_char c) (toLowerCase rest)
  end.

(** [s.endsWith(suffix)]. *)
Definition endsWith (s suffix : string) : bool :=
  let n := String.length s in
  let m := String.length suffix in
  (m <=? n)%nat && String.eqb (substring (n - m) m s) suffix.

(** [a || b] on strings: the empty string is falsy. *)
Definition or_else (a b : string) : string :=
  if String.eqb a "" then b else a.

(** The filter of the loop body. *)
Definition is_mp3 (f : DOM.File) : bool :=
  endsWith (toLowerCase (DOM.name f)) ".mp3" || String.eqb (DOM.type f) "audio/mpeg".

(** The object pushed for an accepted file; [uuid] is the value
    [crypto.randomUUID()] returns for it. *)
Definition to_audio (uuid : string) (f : DOM.File) : AudioFile :=
  mkAudioFile uuid (DOM.name f) (pretty (DOM.size f))
    (or_else (DOM.type f) "audio/mpeg") f
    (or_else (DOM.webkitRelativePath f) (DOM.name f)).

(** [for (let i = 0; i < fileList.length; i++) { ... audioFiles.push(...) }];
    [uuids k] is the result of the [k]-th call of [crypto.randomUUID]. *)
Fixpoint scan_files (uuids : nat -> string) (fileList : list DOM.File)
  (audioFiles : list AudioFile) : list AudioFile :=
  match fileList with
  | [] => audioFiles
  | f :: rest =>
      if is_mp3 f
      then scan_files uuids rest
             (audioFiles ++ [to_audio (uuids (length audioFiles)) f])
      else scan_files uuids rest audioFiles
  end.

(** [Array.prototype.sort(compareFn)]: a stable sort; for a consistent
    comparator every stable sort returns the same array, here by
    insertion. *)
Fixpoint insert_by {A} (cmp : A -> A -> Z) (x : A) (l : list A) : list A :=
  match l with
  | [] => [x]
  | y :: rest =>
      if (0 <? cmp x y)%Z then y :: insert_by cmp x rest else x :: y :: rest
  end.

Fixpoint sort_by {A} (cmp : A -> A -> Z) (l : list A) : list A :=
  match l with
  | [] => []
  | x :: rest => insert_by cmp x (sort_by cmp rest)
  end.

(** [processLocalFiles]; [localeCompare] is the host's collation. *)
Definition processLocalFiles (localeCompare : string -> string -> Z)
  (uuids : nat -> string) (fileList : list DOM.File) : list AudioFile :=
  sort_by (fun a b => localeCompare (name a) (name b))
    (scan_files uuids fileList []).

(** *** Vocabulary of the specification *)

(** The name ends with ".mp3", in any mix of upper and lower case. *)
Definition ends_with_mp3 (s : string) : Prop :=
  exists stem ext, s = stem ++ ext /\ toLowerCase ext = ".mp3".

Definition accepted (f : DOM.File) : Prop :=
  ends_with_mp3 (DOM.name f) \/ DOM.type f = "audio/mpeg".

(** The entry keeps the name and the size (as a decimal string) of the
    file it was made from. *)
Definition faithful (a : AudioFile) : Prop :=
  name a = DOM.name (file a) /\ size a = pretty (DOM.size (file a)).

(** Ascending order of names under the collation. *)
Definition name_le (localeCompare : string -> string -> Z) (a b : AudioFile)
  : Prop :=
  (localeCompare (name a) (name b) <= 0)%Z.

(** A collation is consistent when it is antisymmetric in sign and
    transitive. *)
Definition consistent (cmp : string -> string -> Z) : Prop :=
  (forall a b, (0 < cmp a b)%Z -> (cmp b a <= 0)%Z) /\
  (forall a b c, (cmp a b <= 0)%Z -> (cmp b c <= 0)%Z -> (cmp a c <= 0)%Z).

(** Code-unit order, the collation of the sample run. *)
Definition code_unit_compare (a b : string) : Z :=
  match String.compare a b with
  | Lt => (-1)%Z
  | Eq => 0%Z
  | Gt => 1%Z
  end.

Definition sample_files : list DOM.File :=
  [ DOM.mkFile "wren.MP3" 2048 "" "birds/wren.MP3";
    DOM.mkFile "notes.txt" 12 "text/plain" "birds/notes.txt";
    DOM.mkFile "robin" 4096 "audio/mpeg" "";
    DOM.mkFile "lark.mp3" 1024 "audio/mpeg" "birds/lark.mp3" ].

Definition sample_uuids (k : nat) : string := "uuid-" ++ pretty k.

(** A selection whose MP3 files already come in name order. *)
Definition sorted_files : list DOM.File :=
  [ DOM.mkFile "lark.mp3" 1024 "audio/mpeg" "birds/lark.mp3";
    DOM.mkFile "notes.txt" 12 "text/plain" "birds/notes.txt";
    DOM.mkFile "robin" 4096 "audio/mpeg" "";
    DOM.mkFile "wren.MP3" 2048 "" "birds/wren.MP3" ].

End LocalService.

(** ** The snapshot exporter ([takeSnapshot]) *)

Module Snapshot.
Import Canvas Types.
Local Open Scope string_scope.

(** What the handler sees of the component: the props [track] and
    [micStream], the live canvas behind [liveCanvasRef] and the canvas the
    spectrogram plugin has put into the [spectrogramRef] container. *)
Record View := mkView {
  track : option AudioFile;
  micStream : bool;
  liveCanvasRef : option Context2D;
  spectrogramCanvas : option Context2D
}.

(** The encoded image of [canvas.toDataURL(mime)]. *)
Record DataURL := mkDataURL {
  mime : string;
  image : list (list rgb)
}.

(** The effect of [link.click()]: one file offered for saving. *)
Record Download := mkDownload {
  download : string;
  href : DataURL
}.

Definition toDataURL (c : Context2D) (mimeType : string) : DataURL :=
  mkDataURL mimeType (bitmap c).

Definition targetCanvas (v : View) : option Context2D :=
  if micStream v then liveCanvasRef v else spectrogramCanvas v.

(** [track?.name || 'live']. *)
Definition trackNameOrLive (v : View) : string :=
  match track v with
  | Some t => LocalService.or_else (name t) "live"
  | None => "live"
  end.

(** [takeSnapshot]; [nowMs] is [Date.now()].  The result lists the files
    handed to the host. *)
Definition takeSnapshot (v : View) (nowMs : Z) : list Download :=
  match targetCanvas v with
  | None => []
  | Some canvas =>
      [ mkDownload
          ("spectrogram-" ++ trackNameOrLive v ++ "-" ++ pretty nowMs ++ ".png")
          (toDataURL canvas "image/png") ]
  end.

(** What the component renders: with neither a track nor a microphone the
    placeholder is shown and neither canvas exists; the live canvas exists
    only in microphone mode and the spectrogram container only in file
    mode. *)
Definition rendered (v : View) : Prop :=
  (track v = None -> micStream v = false ->
   liveCanvasRef v = None /\ spectrogramCanvas v = None) /\
  (micStream v = false -> liveCanvasRef v = None) /\
  (micStream v = true -> spectrogramCanvas v = None).

Definition idle_view : View := mkView None false None None.

Definition live_view : View :=
  mkView None true (Some (blank 2 2)) None.

(** File mode with a track selected and its spectrogram drawn. *)
Definition track_view : View :=
  mkView
    (Some (LocalService.to_audio "uuid-0"
             (DOM.mkFile "wren.MP3" 2048 "" "birds/wren.MP3")))
    false None (Some (blank 2 2)).

End Snapshot.

(** ** The live effect around [renderLive] *)

Module LiveEffect.
Import Canvas Waterfall.
Local Open Scope prog_scope.

(** The column one frame adds, with the loop bound as the code has it
    ([i < maxFreqIndex]). *)
Definition painted_column (colormap : list rgb) (h : nat) (f : Frame)
  : list rgb :=
  foldl (paint_bin colormap (dataArray f) h (maxFreqIndex f))
    (replicate h black) (seqZ 0 (maxFreqIndex f)).

(** The set-up of the effect on the canvas, run whenever [micStream] or
    [micGain] changes:
    [ctx.fillStyle = '#000000'; ctx.fillRect(0, 0, canvas.width, canvas.height)]. *)
Definition attach : M Context2D unit :=
  let* c := get in
  setFillStyle black ;;
  fillRect 0 0 (Z.of_nat (width c)) (inject_Z (Z.of_nat (height c))).

Definition sumZ (l : list Z) : Z := foldr Z.add 0 l.

(** What the spectrogram plug-in expects of a colour map entry: colour
    components in [0,1] and alpha 1. *)
Definition unit_interval (x : Q) : Prop := (0 <= x)%Q /\ (x <= 1)%Q.

Definition normalised (c : Q * Q * Q * Q) : Prop :=
  let '(r, g, b, a) := c in
  unit_interval r /\ unit_interval g /\ unit_interval b /\ a = 1%Q.

(** A frame of full-scale bins from the 16 kHz context, and a live
    canvas of the component's height. *)
Definition loud_narrowband_frame : Frame := mkFrame (replicate 1024 255) 16000.
Definition tall_canvas : Context2D := blank 2 320.

(** Neighbouring table entries: channel-wise distance. *)
Definition channel_step (a b : rgb) : Z :=
  let '(r0, g0, b0) := a in
  let '(r1, g1, b1) := b in
  Z.max (Z.abs (r1 - r0)) (Z.max (Z.abs (g1 - g0)) (Z.abs (b1 - b0))).

Definition byte_triple (c : Z * Z * Z) : bool :=
  let '(r, g, b) := c in
  (0 <=? r) && (r <=? 255) && (0 <=? g) && (g <=? 255)
  && (0 <=? b) && (b <=? 255).

(** Neighbours differ by at most 4 in every channel, and red and green do
    not decrease. *)
Definition smooth_pair (p : rgb * rgb) : bool :=
  (channel_step p.1 p.2 <=? 4) && (p.1.1.1 <=? p.2.1.1) && (p.1.1.2 <=? p.2.1.2).

End LiveEffect.

(** ** More of the calibration sweep *)

Module Sweep.
Import Calibration.

(** Node ids handed out so far are below [nextNode]. *)
Definition nodes_fresh (p : Player) : Prop :=
  match audioCtxRef p with
  | Some c => forall k o, oscillators c !! k = Some o -> (k < nextNode c)%nat
  | None => True
  end.


End Sweep.

(** ** The track list ([Sidebar]) *)

Module Sidebar.
Import Types LocalService.
Local Open Scope string_scope.

(** [s.startsWith(p)]. *)
Fixpoint startsWith (s p : string) : bool :=
  match p, s with
  | EmptyString, _ => true
  | String c p', String d s' => Ascii.eqb c d && startsWith s' p'
  | String _ _, EmptyString => false
  end.

(** [s.includes(sub)]: [sub] occurs at some position of [s]. *)
Fixpoint includes (s sub : string) : bool :=
  startsWith s sub
  || match s with
     | EmptyString => false
     | String _ s' => includes s' sub
     end.

(** Strings made of code units of the ASCII range. *)
Fixpoint is_ascii (s : string) : bool :=
  match s with
  | EmptyString => true
  | String c rest => (nat_of_ascii c <? 128)%nat && is_ascii rest
  end.

(** [String.prototype.toLowerCase] belongs to the host and follows the
    Unicode case mappings, which depend on the context outside ASCII (a
    final sigma lower-cases differently).  What is known of it here: on an
    ASCII string it maps A-Z to a-z and keeps every other character. *)
Definition ascii_lowering (toLowerCase : string -> string) : Prop :=
  forall s, is_ascii s = true -> toLowerCase s = LocalService.toLowerCase s.

(** [files.filter(file => file.name.toLowerCase().includes(searchQuery.toLowerCase()))];
    [toLowerCase] is the host's. *)
Definition filteredFiles (toLowerCase : string -> string)
  (files : list AudioFile) (searchQuery : string) : list AudioFile :=
  List.filter
    (fun file => includes (toLowerCase (name file)) (toLowerCase searchQuery))
    files.

(** Value of a decimal or hexadecimal digit. *)
Definition digit_value (c : ascii) : option Z :=
  let n := nat_of_ascii c in
  if (48 <=? n)%nat && (n <=? 57)%nat then Some (Z.of_nat (n - 48)) else None.

Definition hex_value (c : ascii) : option Z :=
  let n := nat_of_ascii c in
  if (48 <=? n)%nat && (n <=? 57)%nat then Some (Z.of_nat (n - 48))
  else if (97 <=? n)%nat && (n <=? 102)%nat then Some (Z.of_nat (n - 87))
  else if (65 <=? n)%nat && (n <=? 70)%nat then Some (Z.of_nat (n - 55))
  else None.

(** The longest prefix of digits in the given radix, as a number; [None]
    when the string does not start with a digit. *)
Fixpoint parse_digits (value : ascii -> option Z) (radix : Z)
  (acc : option Z) (s : string) : option Z :=
  match s with
  | EmptyString => acc
  | String c rest =>
      match value c with
      | Some d => parse_digits value radix
                    (Some (default 0%Z acc * radix + d)%Z) rest
      | None => acc
      end
  end.

Fixpoint skip_space (s : string) : string :=
  match s with
  | String c rest => if Ascii.is_space c then skip_space rest else s
  | EmptyString => s
  end.

(** After the sign: a [0x] / [0X] prefix selects radix 16. *)
Definition parse_magnitude (s : string) : option Z :=
  match s with
  | String "0" (String "x" rest) | String "0" (String "X" rest) =>
      parse_digits hex_value 16 None rest
  | _ => parse_digits digit_value 10 None s
  end.

(** [parseInt(s)] without a radix; [None] is [NaN]. *)
Definition parseInt (s : string) : option Z :=
  match skip_space s with
  | String "-" rest => option_map Z.opp (parse_magnitude rest)
  | String "+" rest => parse_magnitude rest
  | t => parse_magnitude t
  end.

(** Two decimal digits of a number below 100. *)
Definition two_digits (n : Z) : string :=
  pretty (n / 10)%Z ++ pretty (n mod 10)%Z.

(** [x.toFixed(2)]: the nearest hundredth, the larger one on a tie, with
    the sign split off first. *)
Definition toFixed2 (x : Q) : string :=
  let hundredths := Math_round (Qabs x * 100)%Q in
  (if Qlt_le_dec x 0 then "-" else "")
  ++ pretty (hundredths / 100)%Z ++ "." ++ two_digits (hundredths mod 100)%Z.

(** The size shown under a track:
    [(parseInt(file.size) / 1024 / 1024).toFixed(2)]. *)
Definition sizeMB (a : AudioFile) : string :=
  match parseInt (size a) with
  | Some n => toFixed2 (inject_Z n / 1024 / 1024)%Q
  | None => "NaN"
  end.

End Sidebar.

(** ** The application shell ([App]) *)

Module App.
Import Types LocalService.
Local Open Scope string_scope.

(** The component state, and beside it what the host holds: the
    microphone streams whose tracks are still live, and whether a
    [getUserMedia] promise of [handleStartMic] is still to settle. *)
Record State := mkState {
  files : list AudioFile;
  currentTrack : option AudioFile;
  micStream : option nat;
  isLoading : bool;
  error : option string;
  folderName : option string;
  hasStarted : bool;
  capturing : gset nat;
  awaitingMic : bool
}.

Definition initial : State :=
  mkState [] None None false None None false ∅ false.

(** [path.split('/')[0]]. *)
Fixpoint first_segment (s : string) : string :=
  match s with
  | EmptyString => EmptyString
  | String c rest =>
      if Ascii.eqb c "/" then EmptyString else String c (first_segment rest)
  end.

(** [handleFileChange]; [selected] is [e.target.files] (empty when it is
    null), [localeCompare] the host's collation. *)
Definition handleFileChange (localeCompare : string -> string -> Z)
  (selected : list DOM.File) (uuids : nat -> string) (s : State) : State :=
  match selected with
  | [] => s
  | firstFile :: _ =>
      let folder :=
        or_else (first_segment (DOM.webkitRelativePath firstFile)) "Local Folder" in
      let processed := processLocalFiles localeCompare uuids selected in
      match processed with
      | [] =>
          mkState (files s) (currentTrack s) (micStream s) false
            (Some "No MP3 files were found in the selected folder.")
            (Some folder) (hasStarted s) (capturing s) (awaitingMic s)
      | _ :: _ =>
          mkState processed (currentTrack s) None false None (Some folder) true
            (capturing s) (awaitingMic s)
      end
  end.

(** [handleStartMic] is asynchronous.  Up to its [await] it sets the
    loading flag, clears the error and asks the host for the microphone. *)
Definition handleStartMic_request (s : State) : State :=
  mkState (files s) (currentTrack s) (micStream s) true None (folderName s)
    (hasStarted s) (capturing s) true.

(** The rest runs when the promise settles, on the state of that moment:
    [granted] is the stream [getUserMedia] resolves with, [None] when it
    rejects. *)
Definition handleStartMic_settle (granted : option nat) (s : State) : State :=
  match granted with
  | Some stream =>
      mkState [] (currentTrack s) (Some stream) false (error s)
        (Some "System Microphone") true ({[ stream ]} ∪ capturing s) false
  | None =>
      mkState (files s) (currentTrack s) (micStream s) false
        (Some "Microphone access denied or not supported.")
        (folderName s) (hasStarted s) (capturing s) false
  end.

(** The whole handler when nothing happens in between. *)
Definition handleStartMic (granted : option nat) (s : State) : State :=
  handleStartMic_settle granted (handleStartMic_request s).

(** [resetLibrary]. *)
Definition resetLibrary (s : State) : State :=
  let capturing' :=
    match micStream s with
    | Some stream => capturing s ∖ {[ stream ]}
    | None => capturing s
    end in
  mkState [] None None (isLoading s) (error s) None false capturing'
    (awaitingMic s).

Definition setCurrentTrack (t : option AudioFile) (s : State) : State :=
  mkState (files s) t (micStream s) (isLoading s) (error s) (folderName s)
    (hasStarted s) (capturing s) (awaitingMic s).

(** [files.findIndex(f => f.id === id)], -1 when there is none. *)
Fixpoint findIndex_from (i : Z) (l : list AudioFile) (tid : string) : Z :=
  match l with
  | [] => (-1)%Z
  | f :: rest =>
      if String.eqb (id f) tid then i else findIndex_from (i + 1)%Z rest tid
  end.

Definition findIndex (l : list AudioFile) (tid : string) : Z :=
  findIndex_from 0 l tid.

(** [files[i]]: [undefined] outside the array. *)
Definition item (l : list AudioFile) (i : Z) : option AudioFile :=
  if (i <? 0)%Z then None else l !! Z.to_nat i.

(** [handleNextTrack] and [handlePrevTrack]; [%] is the remainder that
    takes the sign of the dividend. *)
Definition handleNextTrack (s : State) : State :=
  match currentTrack s, files s with
  | None, _ => s
  | Some _, [] => s
  | Some cur, _ :: _ =>
      let currentIndex := findIndex (files s) (id cur) in
      let nextIndex := Z.rem (currentIndex + 1) (Z.of_nat (length (files s))) in
      setCurrentTrack (item (files s) nextIndex) s
  end.

Definition handlePrevTrack (s : State) : State :=
  match currentTrack s, files s with
  | None, _ => s
  | Some _, [] => s
  | Some cur, _ :: _ =>
      let currentIndex := findIndex (files s) (id cur) in
      let prevIndex :=
        Z.rem (currentIndex - 1 + Z.of_nat (length (files s)))
          (Z.of_nat (length (files s))) in
      setCurrentTrack (item (files s) prevIndex) s
  end.

(** What the user and the host can do. *)
Inductive Event :=
  | FileChange (selected : list DOM.File) (uuids : nat -> string)
  | StartMic
  | MicSettled (granted : option nat)
  | SwitchMode
  | SelectTrack (a : AudioFile)
  | Next
  | Prev.

Definition handle (localeCompare : string -> string -> Z) (e : Event)
  (s : State) : State :=
  match e with
  | FileChange selected uuids =>
      handleFileChange localeCompare selected uuids s
  | StartMic => handleStartMic_request s
  | MicSettled granted => handleStartMic_settle granted s
  | SwitchMode => resetLibrary s
  | SelectTrack a => setCurrentTrack (Some a) s
  | Next => handleNextTrack s
  | Prev => handlePrevTrack s
  end.

(** What the rendered page offers: the start screen ([!hasStarted]) has
    the folder button and the microphone button, both disabled while
    [isLoading]; the main screen has "Switch Mode", the player with its
    next / previous controls, and the side bar, which lists files of the
    library.  The host settles a promise that is outstanding. *)
Definition offered (s : State) (e : Event) : Prop :=
  match e with
  | FileChange _ _ | StartMic => hasStarted s = false /\ isLoading s = false
  | MicSettled _ => awaitingMic s = true
  | SwitchMode | Next | Prev => hasStarted s = true
  | SelectTrack a => hasStarted s = true /\ In a (files s)
  end.

Inductive reachable (localeCompare : string -> string -> Z) : State -> Prop :=
  | reach_initial : reachable localeCompare initial
  | reach_step s e :
      reachable localeCompare s -> offered s e ->
      reachable localeCompare (handle localeCompare e s).

(** The sample folder opened from the start screen, and its first track
    selected. *)
Definition sample_library : State :=
  handle code_unit_compare (FileChange sample_files sample_uuids) initial.

Definition sample_playing : State :=
  setCurrentTrack (head (files sample_library)) sample_library.

(** Live mode, entered from the start screen. *)
Definition sample_live : State :=
  handle code_unit_compare (MicSettled (Some 7%nat))
    (handle code_unit_compare StartMic initial).

(** The two modes exclude each other, the selection is a file of the
    library, the page is loading exactly while the microphone request is
    outstanding, which happens on the start screen only, and only the
    current microphone stream is live. *)
Definition mode_invariant (s : State) : Prop :=
  (hasStarted s = false ->
   files s = [] /\ currentTrack s = None /\ micStream s = None) /\
  (forall stream, micStream s = Some stream ->
     files s = [] /\ currentTrack s = None) /\
  (forall t, currentTrack s = Some t -> In t (files s)) /\
  (hasStarted s = true -> micStream s = None -> files s <> []) /\
  Forall (fun a => is_mp3 (file a) = true) (files s) /\
  isLoading s = awaitingMic s /\
  (awaitingMic s = true -> hasStarted s = false) /\
  capturing s = match micStream s with
                | Some stream => {[ stream ]}
                | None => ∅
                end.

End App.

(** * Properties *)

(** ** Rounding *)

Lemma Math_round_nearest (x : Q) :
  (inject_Z (Math_round x) - (1 # 2) <= x)%Q /\
  (x < inject_Z (Math_round x) + (1 # 2))%Q.
Proof.
  unfold Math_round.
  pose proof (Qfloor_le (x + (1 # 2))) as Hlo.
  pose proof (Qlt_floor (x + (1 # 2))) as Hhi.
  rewrite inject_Z_plus in Hhi.
  set (f := inject_Z (Qfloor (x + (1 # 2)))) in *.
  change (inject_Z 1) with 1%Q in Hhi.
  split; lra.
Qed.

Lemma Math_round_mono (x y : Q) : (x <= y)%Q -> Math_round x <= Math_round y.
Proof.
  intros H. unfold Math_round. apply Qfloor_resp_le.
  apply Qplus_le_l. exact H.
Qed.

Lemma Math_round_inject (z : Z) : Math_round (inject_Z z) = z.
Proof.
  unfold Math_round, Qfloor, inject_Z, Qplus. simpl.
  rewrite Z.mul_1_r.
  replace (z * 2 + 1) with (1 + z * 2) by lia.
  rewrite Z.div_add by lia. reflexivity.
Qed.

Lemma Math_round_comp (x y : Q) : (x == y)%Q -> Math_round x = Math_round y.
Proof. intros H. unfold Math_round. apply Qfloor_comp. by rewrite H. Qed.

Lemma inject_nat_nonneg (n : nat) : (0 <= inject_Z (Z.of_nat n))%Q.
Proof. change 0%Q with (inject_Z 0). rewrite <- Zle_Qle. lia. Qed.

(** ** The colour map *)

Module ColormapProps.
Import Colormap.

Lemma convex_bounds (s e : Z) (t : Q) :
  0 <= s <= 255 -> 0 <= e <= 255 -> (0 <= t)%Q -> (t <= 1)%Q ->
  (0 <= inject_Z s + inject_Z (e - s) * t)%Q /\
  (inject_Z s + inject_Z (e - s) * t <= 255)%Q.
Proof.
  intros [Hs0 Hs1] [He0 He1] Ht0 Ht1.
  unfold Z.sub. rewrite inject_Z_plus, inject_Z_opp.
  rewrite Zle_Qle in Hs0, Hs1, He0, He1.
  change (inject_Z 0) with 0%Q in *. change (inject_Z 255) with 255%Q in *.
  set (S := inject_Z s) in *. set (E := inject_Z e) in *.
  split; nra.
Qed.

(** Interpolating between two bytes with a ratio in [0,1] and rounding
    gives a byte: the generator needs no clamp. *)
Lemma mix_bounds (s e : Z) (t : Q) :
  0 <= s <= 255 -> 0 <= e <= 255 -> (0 <= t)%Q -> (t <= 1)%Q ->
  0 <= mix s e t <= 255.
Proof.
  intros Hs He Ht0 Ht1.
  destruct (convex_bounds s e t Hs He Ht0 Ht1) as [Hlo Hhi].
  unfold mix. split.
  - rewrite <- (Math_round_inject 0). apply Math_round_mono. exact Hlo.
  - rewrite <- (Math_round_inject 255). apply Math_round_mono. exact Hhi.
Qed.

(** The loop with [break] picks the first interval that contains the
    ratio, and keeps the initial pair when there is none. *)
Lemma scan_find ratio kps dflt :
  scan ratio kps dflt
  = default dflt (List.find (contains ratio) (intervals kps)).
Proof.
  induction kps as [|k0 [|k1 rest] IH]; try reflexivity.
  cbn [scan]. unfold intervals in *. cbn [tail zip zip_with List.find] in *.
  unfold contains at 1. cbn [fst snd].
  destruct (Qle_bool (pos k0) ratio && Qle_bool ratio (pos k1)); [reflexivity|].
  exact IH.
Qed.

Lemma push_entries_map kps n i acc :
  push_entries kps n i acc = acc ++ map (entry kps) (seqZ i (Z.of_nat n)).
Proof.
  revert i acc. induction n as [|n IH]; intros i acc.
  - cbn. by rewrite app_nil_r.
  - cbn [push_entries]. rewrite IH.
    rewrite Nat2Z.inj_succ, (seqZ_cons i) by lia.
    rewrite <- app_assoc. cbn [map app].
    replace (Z.succ i) with (i + 1) by lia.
    replace (Z.pred (Z.succ (Z.of_nat n))) with (Z.of_nat n) by lia.
    reflexivity.
Qed.

Lemma last_default_irrelevant {A} (l : list A) (d d' : A) :
  l <> [] -> List.last l d = List.last l d'.
Proof.
  induction l as [|x [|y l] IH]; intros Hne; [done|reflexivity|].
  change (List.last (y :: l) d = List.last (y :: l) d'). by apply IH.
Qed.

(** A ratio between the first and the last position lies in some adjacent
    interval. *)
Lemma find_covers ratio k0 rest :
  rest <> [] ->
  (pos k0 <= ratio)%Q -> (ratio <= pos (List.last rest k0))%Q ->
  is_Some (List.find (contains ratio) (intervals (k0 :: rest))).
Proof.
  revert k0. induction rest as [|k1 rest IH]; intros k0 Hne Hlo Hhi; [done|].
  unfold intervals. cbn [tail zip zip_with List.find].
  unfold contains at 1. cbn [fst snd].
  destruct (Qle_bool (pos k0) ratio) eqn:E0.
  2:{ rewrite <- Qle_bool_iff in Hlo. congruence. }
  destruct (Qle_bool ratio (pos k1)) eqn:E1; cbn [andb]; [eauto|].
  destruct rest as [|k2 rest].
  { cbn in Hhi. rewrite <- Qle_bool_iff in Hhi. congruence. }
  apply (IH k1); [done| |].
  - apply Qlt_le_weak, Qnot_le_lt. rewrite <- Qle_bool_iff. congruence.
  - change (ratio <= pos (List.last (k2 :: rest) k0))%Q in Hhi.
    by rewrite (last_default_irrelevant _ k1 k0).
Qed.

(** For any usable key-point list the generator's entry is the reference
    entry; the reference's clamp never has to act. *)
Lemma entry_reference kps i :
  increasing kps -> colours_ok kps ->
  (pos (first_key kps) <= inject_Z i / 255)%Q ->
  (inject_Z i / 255 <= pos (last_key kps))%Q ->
  2 <= Z.of_nat (length kps) ->
  reference_entry kps i = Some (entry kps i).
Proof.
  intros Hinc Hcol Hlo Hhi Hlen.
  destruct kps as [|k0 rest]; [cbn in Hlen; lia|].
  assert (Hne : rest <> []) by (destruct rest; [cbn in Hlen; lia|done]).
  unfold last_key, first_key in *. cbn [hd] in *.
  assert (Hl : List.last (k0 :: rest) (mkKey 0 []) = List.last rest k0).
  { destruct rest as [|k1 rest]; [done|].
    change (List.last (k1 :: rest) (mkKey 0 []) = List.last (k1 :: rest) k0).
    by apply last_default_irrelevant. }
  rewrite Hl in Hhi.
  destruct (find_covers _ k0 rest Hne Hlo Hhi) as [[s e] Hfind].
  unfold reference_entry, entry. rewrite scan_find, Hfind.
  change (default _ (Some (s, e))) with (s, e). cbv beta iota.
  apply find_some in Hfind as [Hin Hc].
  unfold increasing in Hinc. rewrite Forall_forall in Hinc.
  specialize (Hinc _ (proj2 (list_elem_of_In _ _) Hin)). cbn [fst snd] in Hinc.
  unfold contains in Hc. cbn [fst snd] in Hc.
  apply andb_prop in Hc as [Hc0 Hc1]. rewrite Qle_bool_iff in Hc0, Hc1.
  assert (Hs : forall c, 0 <= chan (color s) c <= 255).
  { unfold colours_ok in Hcol. rewrite Forall_forall in Hcol. apply Hcol.
    apply list_elem_of_In in Hin. unfold intervals in Hin.
    apply elem_of_zip_l in Hin. exact Hin. }
  assert (He : forall c, 0 <= chan (color e) c <= 255).
  { unfold colours_ok in Hcol. rewrite Forall_forall in Hcol. apply Hcol.
    apply list_elem_of_In in Hin. unfold intervals in Hin.
    apply elem_of_zip_r in Hin. cbn [tail] in Hin.
    by apply list_elem_of_further. }
  set (ratio := (inject_Z i / 255)%Q) in *.
  assert (Hrange : (0 < pos e - pos s)%Q) by lra.
  destruct (Qeq_bool (pos e - pos s) 0) eqn:Eq.
  { apply Qeq_bool_iff in Eq. lra. }
  cbv iota.
  set (rr := ((ratio - pos s) / (pos e - pos s))%Q).
  assert (Hrr0 : (0 <= rr)%Q).
  { unfold rr. apply Qle_shift_div_l; [exact Hrange|]. lra. }
  assert (Hrr1 : (rr <= 1)%Q).
  { unfold rr. apply Qle_shift_div_r; [exact Hrange|]. lra. }
  unfold lerp. cbn [fst snd]. fold rr.
  unfold mix.
  pose proof (fun c => mix_bounds _ _ rr (Hs c) (He c) Hrr0 Hrr1) as Hb.
  unfold mix in Hb. unfold clamp255.
  rewrite !Z.min_r, !Z.max_r by (try apply Z.min_glb; try apply Hb; lia).
  reflexivity.
Qed.

Lemma keyPoints_increasing : increasing keyPoints.
Proof. unfold increasing, intervals, keyPoints. cbn. repeat constructor. Qed.

Lemma keyPoints_colours : colours_ok keyPoints.
Proof.
  unfold colours_ok, keyPoints.
  repeat constructor; cbn; do 5 (try destruct c as [|c]; cbn; try lia).
Qed.

Lemma ratio_unit (i : nat) :
  (i < 256)%nat ->
  (0 <= inject_Z (Z.of_nat i) / 255)%Q /\ (inject_Z (Z.of_nat i) / 255 <= 1)%Q.
Proof.
  intros Hi. split.
  - apply Qle_shift_div_l; [reflexivity|]. rewrite Qmult_0_l.
    apply inject_nat_nonneg.
  - apply Qle_shift_div_r; [reflexivity|]. rewrite Qmult_1_l.
    change 255%Q with (inject_Z 255). rewrite <- Zle_Qle. lia.
Qed.

Lemma colormap_lookup (i : nat) :
  (i < 256)%nat ->
  generateBirdSongColormap !! i = Some (entry keyPoints (Z.of_nat i)).
Proof.
  intros Hi. unfold generateBirdSongColormap.
  rewrite push_entries_map. cbn [app].
  change (map (entry keyPoints)) with (fmap (M := list) (entry keyPoints)).
  rewrite list_lookup_fmap, lookup_seqZ_lt by lia. reflexivity.
Qed.

Lemma colormap_length : length generateBirdSongColormap = 256%nat.
Proof. reflexivity. Qed.

(** Rounding margin: no channel value of the table is within 1/306 of a
    rounding tie, and no ratio [i/255] is within 1/5100 of a key position
    it does not hit exactly; double-precision evaluation therefore takes
    the same branches and rounds to the same integers. *)
Lemma rounding_margin :
  forallb (fun i =>
    let ratio := (inject_Z i / 255)%Q in
    match List.find (contains ratio) (intervals keyPoints) with
    | Some iv =>
        forallb (fun k => Qle_bool (1 # 306) (tie_distance (lerp iv ratio k)))
          [0%nat; 1%nat; 2%nat]
    | None => false
    end
    && forallb (fun k =>
          Qeq_bool ratio (pos k)
          || Qle_bool (1 # 5100) (Qabs (ratio - pos k))) keyPoints)
    (seqZ 0 256) = true.
Proof. vm_compute. reflexivity. Qed.

Example colormap_samples :
  generateBirdSongColormap !! 1%nat = Some (1, 0, 2) /\
  generateBirdSongColormap !! 102%nat = Some (140, 0, 160) /\
  generateBirdSongColormap !! 128%nat = Some (179, 34, 106) /\
  generateBirdSongColormap !! 254%nat = Some (255, 253, 252).
Proof. vm_compute. repeat split. Qed.

(** C2. The generator returns exactly 256 RGB triples.  Entry [i] is the
    reference entry: with [ratio = i/255] and the first key-point interval
    that contains it, every channel is the linear interpolation, rounded to
    a nearest integer, and lies in [0,255].  Entry 0 is the colour of the
    first key point and entry 255 the colour of the last. *)
Theorem generateBirdSongColormap_reference :
  length generateBirdSongColormap = 256%nat /\
  (forall i : nat, (i < 256)%nat ->
     exists iv rgb,
       generateBirdSongColormap !! i = Some rgb /\
       reference_entry keyPoints (Z.of_nat i) = Some rgb /\
       List.find (contains (inject_Z (Z.of_nat i) / 255)) (intervals keyPoints)
         = Some iv /\
       nearest (rgb.1.1) (lerp iv (inject_Z (Z.of_nat i) / 255) 0) /\
       nearest (rgb.1.2) (lerp iv (inject_Z (Z.of_nat i) / 255) 1) /\
       nearest (rgb.2) (lerp iv (inject_Z (Z.of_nat i) / 255) 2) /\
       valid_rgb rgb) /\
  generateBirdSongColormap !! 0%nat = Some (rgb_of (first_key keyPoints)) /\
  generateBirdSongColormap !! 255%nat = Some (rgb_of (last_key keyPoints)).
Proof.
  split; [reflexivity|]. split; [|split; reflexivity].
  intros i Hi.
  destruct (ratio_unit i Hi) as [Hlo Hhi].
  pose proof (entry_reference keyPoints (Z.of_nat i) keyPoints_increasing
                keyPoints_colours Hlo Hhi ltac:(cbn; lia)) as Href.
  pose proof Href as Href'. unfold reference_entry in Href'.
  destruct (List.find _ _) as [[s e]|] eqn:Hfind; [|discriminate].
  exists (s, e), (entry keyPoints (Z.of_nat i)).
  split; [by apply colormap_lookup|]. split; [exact Href|].
  split; [reflexivity|].
  injection Href' as Href'. rewrite <- Href'. cbn [fst snd].
  assert (Hclamp : forall z, 0 <= clamp255 z <= 255) by (unfold clamp255; lia).
  assert (Hnear : forall x, 0 <= Math_round x <= 255 ->
                    nearest (clamp255 (Math_round x)) x).
  { intros x Hx. unfold clamp255. rewrite Z.min_r, Z.max_r by lia.
    destruct (Math_round_nearest x) as [H1 H2]. unfold nearest.
    apply Qabs_Qle_condition. split; lra. }
  assert (Hr : forall k,
    0 <= Math_round (lerp (s, e) (inject_Z (Z.of_nat i) / 255) k) <= 255).
  { intros k.
    apply find_some in Hfind as [Hin Hc].
    pose proof keyPoints_increasing as Hinc. unfold increasing in Hinc.
    rewrite Forall_forall in Hinc.
    specialize (Hinc _ (proj2 (list_elem_of_In _ _) Hin)).
    unfold contains in Hc. apply andb_prop in Hc as [Hc0 Hc1].
    rewrite Qle_bool_iff in Hc0, Hc1.
    pose proof keyPoints_colours as Hcol. unfold colours_ok in Hcol.
    rewrite Forall_forall in Hcol.
    apply list_elem_of_In in Hin. unfold intervals in Hin.
    pose proof (elem_of_zip_l _ _ _ _ Hin) as Hs.
    pose proof (elem_of_zip_r _ _ _ _ Hin) as He. cbn [fst snd] in *.
    apply (list_elem_of_further _ (mkKey 0 [0; 0; 0; 1])) in He.
    set (ratio := (inject_Z (Z.of_nat i) / 255)%Q) in *.
    apply (mix_bounds _ _ _ (Hcol _ Hs k) (Hcol _ He k)); cbn [fst snd].
    - apply Qle_shift_div_l; lra.
    - apply Qle_shift_div_r; lra. }
  repeat split; try apply Hnear; try apply Hclamp; apply Hr.
Qed.

End ColormapProps.

(** ** The canvas operations *)

Module CanvasProps.
Import Canvas.

Lemma blend_comp old new a b : (a == b)%Q -> blend old new a = blend old new b.
Proof.
  intros H. destruct old as [[r0 g0] b0], new as [[r1 g1] b1]. unfold blend.
  f_equal; [f_equal|]; apply Math_round_comp; by rewrite H.
Qed.

Lemma blend_none old new a : (a == 0)%Q -> blend old new a = old.
Proof.
  intros H. rewrite (blend_comp _ _ _ _ H).
  destruct old as [[r0 g0] b0], new as [[r1 g1] b1]. unfold blend.
  f_equal; [f_equal|]; rewrite <- Math_round_inject; apply Math_round_comp; ring.
Qed.

Lemma blend_full old new a : (a == 1)%Q -> blend old new a = new.
Proof.
  intros H. rewrite (blend_comp _ _ _ _ H).
  destruct old as [[r0 g0] b0], new as [[r1 g1] b1]. unfold blend.
  f_equal; [f_equal|]; rewrite <- Math_round_inject; apply Math_round_comp;
    unfold Z.sub; rewrite inject_Z_plus, inject_Z_opp; ring.
Qed.

Lemma coverage_nonneg y h r : (0 <= coverage y h r)%Q.
Proof. unfold coverage. apply Q.le_max_l. Qed.

(** A row that lies inside [y, y + h) is fully covered. *)
Lemma coverage_inside y h r :
  (y <= inject_Z (Z.of_nat r))%Q -> (inject_Z (Z.of_nat r) + 1 <= y + h)%Q ->
  (coverage y h r == 1)%Q.
Proof.
  intros H1 H2. unfold coverage.
  set (R := inject_Z (Z.of_nat r)) in *.
  assert (Hh : (0 <= h)%Q) by lra.
  rewrite (Q.min_l y (y + h)) by lra.
  rewrite (Q.max_r y (y + h)) by lra.
  rewrite (Q.min_r (y + h) (R + 1)) by lra.
  rewrite (Q.max_r y R) by lra.
  rewrite Q.max_r by lra. ring.
Qed.


Lemma length_fill_band c y h col : length (fill_band c y h col) = length col.
Proof. unfold fill_band. apply length_imap. Qed.

Lemma fill_band_black_full (h : nat) col :
  length col = h ->
  fill_band black 0 (inject_Z (Z.of_nat h)) col = replicate h black.
Proof.
  intros Hlen. apply list_eq. intros r. unfold fill_band.
  rewrite list_lookup_imap.
  destruct (decide (r < h)%nat) as [Hr|Hr].
  - rewrite lookup_replicate_2 by done.
    destruct (lookup_lt_is_Some_2 col r) as [p Hp]; [lia|]. rewrite Hp. cbn.
    f_equal. apply blend_full. apply coverage_inside.
    + apply inject_nat_nonneg.
    + rewrite Qplus_0_l. change 1%Q with (inject_Z 1).
      rewrite <- inject_Z_plus, <- Zle_Qle. lia.
  - rewrite lookup_ge_None_2 by lia. cbn. symmetry.
    apply lookup_ge_None_2. rewrite length_replicate. lia.
Qed.

Lemma pixel_lookup bm (c r : nat) col p :
  bm !! c = Some col -> col !! r = Some p ->
  pixel bm (Z.of_nat c) (Z.of_nat r) = p.
Proof.
  intros Hc Hr. unfold pixel.
  destruct (Z.ltb_spec (Z.of_nat c) 0); [lia|].
  destruct (Z.ltb_spec (Z.of_nat r) 0); [lia|]. cbn [orb].
  rewrite !Nat2Z.id, Hc. cbn. by rewrite Hr.
Qed.

(** What [getImageData(1, 0, width - 1, height)] followed by
    [putImageData(img, 0, 0)] leaves in the bitmap: every column but the
    last takes the content of its right neighbour, the last one is
    untouched. *)
Lemma shift_left (c : Context2D) :
  well_formed c -> (2 <= width c)%nat -> (1 <= height c)%nat ->
  exists img,
    getImageData 1 0 (Z.of_nat (width c) - 1) (Z.of_nat (height c)) c
      = Some (img, c) /\
    putImageData img 0 0 c
      = Some (tt, set_bitmap (drop 1 (bitmap c) ++ drop (width c - 1) (bitmap c)) c).
Proof.
  intros [Hw Hh] HW HH. eexists. split.
  { unfold getImageData.
    destruct (Z.leb_spec (Z.of_nat (width c) - 1) 0); [lia|].
    destruct (Z.leb_spec (Z.of_nat (height c)) 0); [lia|]. reflexivity. }
  unfold putImageData, modify. cbn [iwidth iheight idata]. do 2 f_equal.
  f_equal. apply list_eq. intros i.
  rewrite list_lookup_imap.
  destruct (decide (i < width c - 1)%nat) as [Hi|Hi].
  - rewrite lookup_app_l by (rewrite length_drop; lia).
    rewrite lookup_drop.
    destruct (lookup_lt_is_Some_2 (bitmap c) i) as [col Hcol]; [lia|].
    destruct (lookup_lt_is_Some_2 (bitmap c) (1 + i)) as [col' Hcol']; [lia|].
    rewrite Hcol, Hcol'. cbn. f_equal.
    assert (Hlc : length col = height c).
    { rewrite Forall_forall in Hh. apply Hh. by eapply list_elem_of_lookup_2. }
    assert (Hlc' : length col' = height c).
    { rewrite Forall_forall in Hh. apply Hh. by eapply list_elem_of_lookup_2. }
    apply list_eq. intros r. rewrite list_lookup_imap.
    destruct (decide (r < height c)%nat) as [Hr|Hr].
    + destruct (lookup_lt_is_Some_2 col r) as [p Hp]; [lia|].
      destruct (lookup_lt_is_Some_2 col' r) as [p' Hp']; [lia|].
      rewrite Hp, Hp'. cbn. f_equal.
      rewrite !Z.sub_0_r.
      destruct (Z.leb_spec 0 (Z.of_nat i)); [|lia].
      destruct (Z.ltb_spec (Z.of_nat i) (Z.of_nat (Z.to_nat (Z.of_nat (width c) - 1)))); [|lia].
      destruct (Z.leb_spec 0 (Z.of_nat r)); [|lia].
      destruct (Z.ltb_spec (Z.of_nat r) (Z.of_nat (Z.to_nat (Z.of_nat (height c))))); [|lia].
      cbn [andb].
      eapply pixel_lookup.
      * rewrite list_lookup_fmap. rewrite lookup_seqZ_lt by lia. cbn. reflexivity.
      * rewrite list_lookup_fmap. rewrite lookup_seqZ_lt by lia. cbn. f_equal.
        replace (1 + (0 + Z.of_nat i)) with (Z.of_nat (1 + i)) by lia.
        replace (0 + (0 + Z.of_nat r)) with (Z.of_nat r) by lia.
        by eapply pixel_lookup.
    + rewrite !lookup_ge_None_2 by lia. reflexivity.
  - destruct (decide (i = width c - 1)%nat) as [->|Hne].
    + rewrite lookup_app_r by (rewrite length_drop; lia).
      rewrite length_drop, lookup_drop.
      replace (width c - 1 + (width c - 1 - (length (bitmap c) - 1)))%nat
        with (width c - 1)%nat by lia.
      destruct (bitmap c !! (width c - 1)%nat) as [col|]; [|reflexivity].
      cbn. f_equal. apply list_eq. intros r. rewrite list_lookup_imap.
      destruct (col !! r) as [p|]; [|reflexivity]. cbn. f_equal.
      rewrite !Z.sub_0_r.
      destruct (Z.ltb_spec (Z.of_nat (width c - 1)) (Z.of_nat (Z.to_nat (Z.of_nat (width c) - 1)))); [lia|].
      by rewrite andb_false_r.
    + rewrite lookup_ge_None_2 by lia. cbn. symmetry.
      apply lookup_ge_None_2. rewrite length_app, !length_drop. lia.
Qed.

Lemma fillRect_last (c : Context2D) pre col y h :
  bitmap c = pre ++ [col] ->
  fillRect (Z.of_nat (length pre)) y 1 h c
    = Some (tt, set_bitmap (pre ++ [fill_band (fillStyle c) y h col]) c).
Proof.
  intros Hbm. unfold fillRect, modify. do 3 f_equal. rewrite Hbm.
  apply list_eq. intros i. rewrite list_lookup_imap.
  destruct (decide (i < length pre)%nat) as [Hi|Hi].
  - rewrite !lookup_app_l by lia.
    destruct (pre !! i) as [q|]; [|reflexivity]. cbn.
    destruct (Z.leb_spec (Z.of_nat (length pre)) (Z.of_nat i)); [lia|]. reflexivity.
  - rewrite !lookup_app_r by lia.
    destruct (i - length pre)%nat as [|k] eqn:Ek; [|reflexivity]. cbn.
    destruct (Z.leb_spec (Z.of_nat (length pre)) (Z.of_nat i)); [|lia].
    destruct (Z.ltb_spec (Z.of_nat i) (Z.of_nat (length pre) + 1)); [|lia].
    reflexivity.
Qed.

End CanvasProps.

(** ** The live waterfall *)

Module WaterfallProps.
Import Canvas Waterfall CanvasProps.

Section Loop.
Variable colormap : list rgb.
Variable f : Frame.
Hypothesis colormap_full : length colormap = 256%nat.
Hypothesis bytes : byte_data (dataArray f).

Lemma draw_bin_last (s : Live) pre col i :
  bitmap (ctx s) = pre ++ [col] ->
  exists s',
    draw_bin colormap f (Z.of_nat (length pre)) i s = Some (tt, s') /\
    width (ctx s') = width (ctx s) /\
    height (ctx s') = height (ctx s) /\
    signalLevel s' = signalLevel s /\
    bitmap (ctx s') =
      pre ++ [paint_bin colormap (dataArray f) (height (ctx s))
                (maxFreqIndex f) col i].
Proof.
  intros Hbm. unfold draw_bin, paint_bin.
  destruct (dataArray f !! Z.to_nat i) as [v|] eqn:Ev.
  2:{ exists s. by repeat split. }
  destruct (Z.ltb_spec 0 v) as [Hv|Hv].
  2:{ exists s. by repeat split. }
  assert (Hv' : 0 <= v <= 255).
  { unfold byte_data in bytes. rewrite Forall_forall in bytes. apply bytes.
    by eapply list_elem_of_lookup_2. }
  destruct (lookup_lt_is_Some_2 colormap (Z.to_nat v)) as [c Hc]; [lia|].
  rewrite Hc. cbn [default from_option id].
  unfold bind, get, on_ctx, setFillStyle, modify. cbn [ctx signalLevel].
  rewrite (fillRect_last _ pre col) by exact Hbm.
  eexists. split; [reflexivity|]. by repeat split.
Qed.

Lemma for_loop_last (n : nat) : forall (s : Live) pre col i,
  bitmap (ctx s) = pre ++ [col] ->
  exists s',
    for_loop n i (draw_bin colormap f (Z.of_nat (length pre))) s = Some (tt, s') /\
    width (ctx s') = width (ctx s) /\
    height (ctx s') = height (ctx s) /\
    signalLevel s' = signalLevel s /\
    bitmap (ctx s') =
      pre ++ [foldl (paint_bin colormap (dataArray f) (height (ctx s))
                       (maxFreqIndex f)) col (seqZ i (Z.of_nat n))].
Proof.
  induction n as [|n IH]; intros s pre col i Hbm.
  - exists s. by repeat split.
  - destruct (draw_bin_last s pre col i Hbm) as (s1 & Hrun & Hw & Hh & Hs & Hb).
    destruct (IH s1 pre _ (i + 1) Hb) as (s2 & Hrun2 & Hw2 & Hh2 & Hs2 & Hb2).
    exists s2. cbn [for_loop]. unfold bind at 1. rewrite Hrun, Hrun2.
    split; [reflexivity|]. repeat split; try congruence.
    rewrite Hb2, Hh. rewrite Nat2Z.inj_succ, (seqZ_cons i) by lia.
    replace (Z.succ i) with (i + 1) by lia.
    replace (Z.pred (Z.succ (Z.of_nat n))) with (Z.of_nat n) by lia.
    reflexivity.
Qed.

(** One tick, with the loop bound as the code has it ([i < maxFreqIndex]). *)
Lemma renderLive_run (s : Live) :
  well_formed (ctx s) -> (2 <= width (ctx s))%nat -> (1 <= height (ctx s))%nat ->
  exists s',
    renderLive colormap f s = Some (tt, s') /\
    width (ctx s') = width (ctx s) /\
    height (ctx s') = height (ctx s) /\
    bitmap (ctx s') =
      drop 1 (bitmap (ctx s))
      ++ [foldl (paint_bin colormap (dataArray f) (height (ctx s)) (maxFreqIndex f))
            (replicate (height (ctx s)) black) (seqZ 0 (maxFreqIndex f))].
Proof.
  intros Hwf HW HH.
  destruct (shift_left (ctx s) Hwf HW HH) as (img & Hget & Hput).
  destruct Hwf as [Hlen Hcols].
  destruct (lookup_lt_is_Some_2 (bitmap (ctx s)) (width (ctx s) - 1)) as [lastc Hlast]; [lia|].
  assert (Hdrop : drop (width (ctx s) - 1) (bitmap (ctx s)) = [lastc]).
  { apply list_eq. intros [|k].
    - rewrite lookup_drop, Nat.add_0_r. exact Hlast.
    - rewrite lookup_drop. cbn. apply lookup_ge_None_2. lia. }
  assert (Hll : length lastc = height (ctx s)).
  { rewrite Forall_forall in Hcols. apply Hcols. by eapply list_elem_of_lookup_2. }
  set (pre := drop 1 (bitmap (ctx s))).
  assert (Hpre : Z.of_nat (width (ctx s)) - 1 = Z.of_nat (length pre)).
  { unfold pre. rewrite length_drop. lia. }
  set (s1 := mkLive (set_bitmap (pre ++ [replicate (height (ctx s)) black])
                       (set_fillStyle black (ctx s)))
               (option_map (fun v => (inject_Z v / 50)%Q) (sum50 (dataArray f)))).
  destruct (for_loop_last (Z.to_nat (maxFreqIndex f)) s1 pre _ 0 eq_refl)
    as (s2 & Hrun & Hw & Hh & _ & Hb).
  exists s2. split; [|repeat split; try assumption].
  - unfold renderLive. unfold bind at 1. unfold get at 1. cbv beta iota.
    unfold bind at 1. unfold on_ctx at 1. rewrite Hget.
    unfold bind at 1. unfold on_ctx at 1. cbn [ctx signalLevel].
    rewrite Hput, Hdrop. fold pre.
    unfold bind at 1. unfold on_ctx at 1, setFillStyle, modify. cbn [ctx signalLevel].
    unfold bind at 1. unfold on_ctx at 1. cbn [ctx signalLevel].
    rewrite Hpre.
    rewrite (fillRect_last _ pre lastc) by reflexivity.
    cbn [fillStyle set_fillStyle set_bitmap].
    rewrite fill_band_black_full by exact Hll.
    unfold bind at 1. unfold setSignalLevel, modify. cbn [ctx signalLevel].
    exact Hrun.
  - rewrite Hb. cbn [s1 ctx height set_bitmap set_fillStyle].
    do 3 f_equal. unfold seqZ. by rewrite Nat2Z.id.
Qed.
End Loop.


Lemma band_height_pos h m : 0 < m -> (1 <= band_height h m)%Q.
Proof.
  intros Hm. unfold band_height.
  assert (0 <= inject_Z (Z.of_nat h) / inject_Z m)%Q; [|lra].
  apply Qle_shift_div_l.
  - change 0%Q with (inject_Z 0). rewrite <- Zlt_Qlt. lia.
  - rewrite Qmult_0_l. apply inject_nat_nonneg.
Qed.



Lemma length_paint_bin colormap data h m col i :
  length (paint_bin colormap data h m col i) = length col.
Proof.
  unfold paint_bin. destruct (data !! Z.to_nat i) as [v|]; [|reflexivity].
  destruct (0 <? v); [|reflexivity]. apply length_fill_band.
Qed.

Lemma length_paint_fold colormap data h m bins : forall col,
  length (foldl (paint_bin colormap data h m) col bins) = length col.
Proof.
  induction bins as [|i bins IH]; intros col; [reflexivity|].
  cbn [foldl]. rewrite IH. apply length_paint_bin.
Qed.

(** A pixel row that no band of a positive bin touches keeps its colour
    through the whole drawing loop. *)
Lemma untouched_row colormap data h m r bins : forall col p,
  Forall (fun i => 0 <= i < m) bins ->
  ~ touched data h m r ->
  col !! r = Some p ->
  foldl (paint_bin colormap data h m) col bins !! r = Some p.
Proof.
  induction bins as [|i bins IH]; intros col p Hbins Hnt Hp; [exact Hp|].
  inversion Hbins as [|? ? Hi Hrest]; subst.
  cbn [foldl]. apply IH; [exact Hrest|exact Hnt|].
  unfold paint_bin. destruct (data !! Z.to_nat i) as [v|] eqn:Ev; [|exact Hp].
  destruct (Z.ltb_spec 0 v) as [Hv|Hv]; [|exact Hp].
  unfold fill_band. rewrite list_lookup_imap, Hp. cbn. f_equal.
  apply blend_none.
  apply Qle_antisym; [|apply coverage_nonneg].
  apply Qnot_lt_le. intros Hcov. apply Hnt.
  exists i, v. split; [exact Hi|]. split; [exact Ev|]. split; [exact Hv|exact Hcov].
Qed.

Lemma seqZ_bounds m : Forall (fun i => 0 <= i < m) (seqZ 0 m).
Proof.
  rewrite Forall_forall. intros i Hi. apply list_elem_of_lookup in Hi as [k Hk].
  apply lookup_seqZ in Hk. lia.
Qed.

Lemma well_formed_tick colormap f (c : Context2D) :
  well_formed c -> (2 <= width c)%nat ->
  length (drop 1 (bitmap c)
          ++ [foldl (paint_bin colormap (dataArray f) (height c) (maxFreqIndex f))
                (replicate (height c) black) (seqZ 0 (maxFreqIndex f))])
    = width c /\
  Forall (fun col => length col = height c)
    (drop 1 (bitmap c)
     ++ [foldl (paint_bin colormap (dataArray f) (height c) (maxFreqIndex f))
           (replicate (height c) black) (seqZ 0 (maxFreqIndex f))]).
Proof.
  intros [Hlen Hcols] HW. split.
  - rewrite length_app, length_drop. cbn. lia.
  - apply Forall_app. split.
    + by apply Forall_drop.
    + constructor; [|constructor].
      rewrite length_paint_fold. apply length_replicate.
Qed.



(** Silence leaves the whole new column black. *)
Lemma silence_untouched (data : list Z) h m r :
  Forall (fun v => v = 0) data -> ~ touched data h m r.
Proof.
  intros Hz (i & v & _ & Hv & Hpos & _).
  rewrite Forall_forall in Hz.
  assert (v = 0) by (apply Hz; by eapply list_elem_of_lookup_2). lia.
Qed.

Lemma silent_column colormap (data : list Z) h m :
  Forall (fun v => v = 0) data ->
  new_column colormap data h m = replicate h black.
Proof.
  intros Hz. unfold new_column.
  generalize (seqZ 0 (m + 1)). intros bins.
  induction bins as [|i bins IH]; [reflexivity|].
  cbn [foldl]. replace (paint_bin colormap data h m (replicate h black) i)
    with (replicate h black); [exact IH|].
  unfold paint_bin. destruct (data !! Z.to_nat i) as [v|] eqn:Ev; [|reflexivity].
  rewrite Forall_forall in Hz.
  assert (v = 0) as -> by (apply Hz; by eapply list_elem_of_lookup_2).
  reflexivity.
Qed.

(** The sample tick: bin 1 (magnitude 255) paints rows 0 and 1 white, bin 0
    (magnitude 100) the rows below; the old columns move one to the left. *)
Example sample_tick :
  option_map (fun r => bitmap (ctx (snd r)))
    (renderLive Colormap.generateBirdSongColormap sample_frame
       (mkLive sample_canvas None))
  = Some [ [(2, 1, 1); (2, 1, 2); (2, 1, 3); (2, 1, 4)];
           [(3, 1, 1); (3, 1, 2); (3, 1, 3); (3, 1, 4)];
           [(255, 255, 255); (255, 255, 255); (136, 0, 157); (136, 0, 157)] ].
Proof. vm_compute. reflexivity. Qed.

Lemma run_frames_invariant (frames : list Frame) : forall s : Live,
  well_formed (ctx s) ->
  (2 <= width (ctx s))%nat -> (1 <= height (ctx s))%nat ->
  Forall (fun f => byte_data (dataArray f)) frames ->
  exists s',
    run_frames Colormap.generateBirdSongColormap frames s = Some (tt, s') /\
    width (ctx s') = width (ctx s) /\
    height (ctx s') = height (ctx s) /\
    well_formed (ctx s').
Proof.
  induction frames as [|f frames IH]; intros s Hwf HW HH Hbytes.
  - exists s. split; [reflexivity|]. split; [reflexivity|].
    split; [reflexivity|exact Hwf].
  - inversion Hbytes as [|? ? Hf Hrest]; subst.
    destruct (renderLive_run _ f ColormapProps.colormap_length Hf s Hwf HW HH)
      as (s1 & Hrun & Hw & Hh & Hb).
    assert (Hwf1 : well_formed (ctx s1)).
    { unfold well_formed. rewrite Hb, Hw, Hh. by apply well_formed_tick. }
    destruct (IH s1 Hwf1 ltac:(lia) ltac:(lia) Hrest) as (s2 & Hrun2 & Hw2 & Hh2 & Hwf2).
    exists s2. cbn [run_frames]. unfold bind at 1. rewrite Hrun.
    split; [exact Hrun2|]. repeat split; try congruence; apply Hwf2.
Qed.

(** C6. Whatever the number of ticks, the animation loop runs to the end
    and leaves the canvas with the width and height it started with: the
    [width] and [height] attributes are unchanged and the backing bitmap
    still has exactly [width] columns of [height] pixels. *)
Theorem waterfall_size_invariant (frames : list Frame) (s : Live) :
  well_formed (ctx s) ->
  (2 <= width (ctx s))%nat -> (1 <= height (ctx s))%nat ->
  Forall (fun f => byte_data (dataArray f)) frames ->
  exists s',
    run_frames Colormap.generateBirdSongColormap frames s = Some (tt, s') /\
    width (ctx s') = width (ctx s) /\
    height (ctx s') = height (ctx s) /\
    length (bitmap (ctx s')) = length (bitmap (ctx s)) /\
    Forall (fun col => length col = height (ctx s)) (bitmap (ctx s')).
Proof.
  intros Hwf HW HH Hbytes.
  destruct (run_frames_invariant frames s Hwf HW HH Hbytes)
    as (s' & Hrun & Hw & Hh & [Hlen Hcols]).
  exists s'. split; [exact Hrun|]. repeat split; try assumption.
  - destruct Hwf as [Hlen0 _]. congruence.
  - by rewrite <- Hh.
Qed.

Lemma waterfall_size_invariant_witness :
  exists s',
    run_frames Colormap.generateBirdSongColormap
      [sample_frame; narrowband_frame; sample_frame]
      (mkLive sample_canvas None) = Some (tt, s') /\
    width (ctx s') = 3%nat /\
    height (ctx s') = 4%nat /\
    length (bitmap (ctx s')) = 3%nat /\
    Forall (fun col => length col = 4%nat) (bitmap (ctx s')).
Proof.
  apply (waterfall_size_invariant
           [sample_frame; narrowband_frame; sample_frame]
           (mkLive sample_canvas None)).
  - split; [reflexivity|]. repeat constructor.
  - cbn. lia.
  - cbn. lia.
  - assert (Hs : byte_data (dataArray sample_frame)).
    { unfold byte_data, sample_frame. cbn [dataArray].
      repeat (constructor; [lia|]). constructor. }
    assert (Hn : byte_data (dataArray narrowband_frame)).
    { unfold byte_data, narrowband_frame. cbn [dataArray].
      apply Forall_replicate. lia. }
    repeat (constructor; [assumption|]). constructor.
Defined.

(** *** The frequency axis *)

Lemma nyquist_pos f : (0 < sampleRate f)%Q -> (0 < nyquist f)%Q.
Proof. intros H. unfold nyquist. apply Qlt_shift_div_l; lra. Qed.

(** On a 16 kHz context the live renderer still scales its axis to
    12000 Hz: its loop bound is 1536 bins where a bound clamped to the
    Nyquist frequency would give 1024, and bin 512 (4000 Hz) is drawn a
    third of the way up the canvas instead of half way. *)
Lemma live_axis_not_clamped :
  (nyquist narrowband_frame < inject_Z FREQ_MAX)%Q /\
  maxFreqIndex narrowband_frame = 1536 /\
  clamped_maxFreqIndex narrowband_frame = 1024 /\
  maxFreqIndex narrowband_frame <> clamped_maxFreqIndex narrowband_frame /\
  ~ (live_axis_top narrowband_frame == clamped_axis_top narrowband_frame)%Q /\
  ~ (band_y 320 (maxFreqIndex narrowband_frame) 512
     == band_y 320 (clamped_maxFreqIndex narrowband_frame) 512)%Q.
Proof.
  repeat split; try reflexivity; vm_compute; discriminate.
Qed.

(** C3, amended.  Both renderers take the configured maximum itself as
    the upper bound of the frequency axis: the static renderer is created
    with [frequencyMax = FREQ_MAX], and the frequency at the top edge of
    the live canvas is [FREQ_MAX] to within one bin, for every positive
    sample rate.  The bound is [min(FREQ_MAX, nyquist)] whenever the
    Nyquist frequency is at least [FREQ_MAX]. *)
Theorem axis_upper_bound_is_configured_max (f : Frame) :
  (0 < sampleRate f)%Q -> 0 < bufferLength f ->
  frequencyMax spectrogramOptions = FREQ_MAX /\
  (inject_Z FREQ_MAX - nyquist f / inject_Z (bufferLength f)
     < live_axis_top f)%Q /\
  (live_axis_top f <= inject_Z FREQ_MAX)%Q /\
  ((inject_Z FREQ_MAX <= nyquist f)%Q ->
   maxFreqIndex f = clamped_maxFreqIndex f).
Proof.
  intros Hsr Hn. split; [reflexivity|].
  pose proof (nyquist_pos f Hsr) as Hny.
  assert (HN : (0 < inject_Z (bufferLength f))%Q).
  { change 0%Q with (inject_Z 0). rewrite <- Zlt_Qlt. exact Hn. }
  unfold live_axis_top, maxFreqIndex, Math_floor.
  set (ny := nyquist f) in *. set (N := inject_Z (bufferLength f)) in *.
  set (X := (inject_Z FREQ_MAX / ny * N)%Q).
  pose proof (Qfloor_le X) as Hlo. pose proof (Qlt_floor X) as Hhi.
  rewrite inject_Z_plus in Hhi. change (inject_Z 1) with 1%Q in Hhi.
  set (F := inject_Z (Qfloor X)) in *.
  assert (HX : (X * ny / N == inject_Z FREQ_MAX)%Q).
  { unfold X. field. split; lra. }
  assert (Hscale : (0 < ny / N)%Q) by (apply Qlt_shift_div_l; lra).
  assert (E1 : (F * ny / N == F * (ny / N))%Q) by (field; lra).
  assert (E2 : (X * ny / N == X * (ny / N))%Q) by (field; lra).
  split; [|split].
  - rewrite E1, <- HX, E2. set (u := (ny / N)%Q) in *. nra.
  - rewrite E1, <- HX, E2. set (u := (ny / N)%Q) in *. nra.
  - intros Hge. unfold clamped_maxFreqIndex, clamped_axis_top, Math_floor.
    fold ny N. apply Qfloor_comp.
    rewrite Q.min_l by exact Hge. reflexivity.
Qed.

Lemma axis_upper_bound_is_configured_max_witness :
  frequencyMax spectrogramOptions = FREQ_MAX /\
  (inject_Z FREQ_MAX
   - nyquist narrowband_frame / inject_Z (bufferLength narrowband_frame)
     < live_axis_top narrowband_frame)%Q /\
  (live_axis_top narrowband_frame <= inject_Z FREQ_MAX)%Q /\
  ((inject_Z FREQ_MAX <= nyquist narrowband_frame)%Q ->
   maxFreqIndex narrowband_frame = clamped_maxFreqIndex narrowband_frame).
Proof.
  apply (axis_upper_bound_is_configured_max narrowband_frame).
  - reflexivity.
  - reflexivity.
Defined.

End WaterfallProps.

(** ** The calibration sweep *)

Module CalibrationProps.
Import Calibration.

Lemma trip_count_step freq :
  freq <= FREQ_MAX -> trip_count freq = 1 + trip_count (freq + 200).
Proof.
  intros H. unfold trip_count, FREQ_MAX in *.
  destruct (Z_le_dec freq 12000); [|lia].
  destruct (Z_le_dec (freq + 200) 12000).
  - replace (12000 - freq) with (1 * 200 + (12000 - (freq + 200))) by lia.
    rewrite Z.div_add_l by lia. lia.
  - rewrite Z.div_small by lia. lia.
Qed.

Lemma trip_count_nonneg freq : 0 <= trip_count freq.
Proof.
  unfold trip_count, FREQ_MAX. destruct (Z_le_dec freq 12000); [|lia].
  assert (0 <= (12000 - freq) / 200) by (apply Z.div_pos; lia). lia.
Qed.

Lemma ramp_spec st d freq k ev :
  ramp st d freq k ev =
  (k + trip_count freq,
   ev ++ ((fun j => (freq + 200 * j, (st + inject_Z (k + j) * d)%Q))
            <$> seqZ 0 (trip_count freq))).
Proof.
  funelim (ramp st d freq k ev).
  - rewrite H. rewrite (trip_count_step freq) by assumption.
    f_equal; [lia|].
    rewrite <- app_assoc. f_equal.
    pose proof (trip_count_nonneg (freq + 200)).
    rewrite (seqZ_cons 0 (1 + trip_count (freq + 200))) by lia. cbn [fmap list_fmap app].
    rewrite Z.mul_0_r, !Z.add_0_r. f_equal.
    replace (Z.pred (1 + trip_count (freq + 200))) with (trip_count (freq + 200)) by lia.
    rewrite <- (fmap_add_seqZ 1 0), <- list_fmap_compose.
    apply list_fmap_ext. intros i j _. cbn. f_equal; [lia|].
    do 2 f_equal. f_equal. lia.
  - unfold trip_count. destruct (Z_le_dec freq FREQ_MAX); [lia|].
    cbn. by rewrite Z.add_0_r, app_nil_r.
Qed.

Lemma runLiveCalibration_start (p : Player) (c : AudioContext) :
  audioCtxRef p = Some c -> isCalibrating p = false -> analyzerRef p = true ->
  let st := (currentTime c + (1 # 10))%Q in
  let osc := nextNode c in
  let gain := S (nextNode c) in
  runLiveCalibration p =
  mkPlayer
    (Some (mkAudio Running (currentTime c) (S (S (nextNode c)))
             (<[osc := mkOsc "sine" (ramp_events st) (Some st)
                         (Some (st + inject_Z 60 * (1 # 20))%Q)]> (oscillators c))
             (<[gain := (15 # 100)%Q]> (gains c))
             ({[ (Gain gain, Analyser) ]} ∪
              ({[ (Gain gain, Destination) ]} ∪
               ({[ (Oscillator osc, Gain gain) ]} ∪ connections c)))))
    true true 10
    (<[S (nextTimer p) :=
         Timeout (now p + ((st + inject_Z 60 * (1 # 20) - st) * 1000 + 100))%Q
           (nextTimer p)]>
       (<[nextTimer p :=
            Interval (now p + (1 # 20) * 1000)%Q ((1 # 20) * 1000)%Q 0]> (timers p)))
    (S (S (nextTimer p))) (now p).
Proof.
  destruct p as [oc an cal fr tm nt nw]. cbn [audioCtxRef isCalibrating analyzerRef].
  intros -> -> ->. unfold runLiveCalibration.
  cbn [audioCtxRef isCalibrating analyzerRef orb negb]. rewrite ramp_spec.
  change (trip_count 10) with 60. cbv zeta.
  destruct c as [[] t n os gs cs]; reflexivity.
Qed.

Ltac fields :=
  cbn [audioCtxRef analyzerRef isCalibrating calibFreq timers nextTimer now
       setIsCalibrating setCalibFreq set_ctx set_timers set_now clearInterval] in *.

Lemma invariant_click p : sweep_invariant p -> sweep_invariant (runLiveCalibration p).
Proof.
  intros Hinv.
  destruct (audioCtxRef p) as [c|] eqn:Hc.
  2:{ unfold runLiveCalibration. by rewrite Hc. }
  destruct (isCalibrating p) eqn:Hcal.
  { unfold runLiveCalibration. by rewrite Hc, Hcal. }
  destruct (analyzerRef p) eqn:Han.
  2:{ unfold runLiveCalibration. by rewrite Hc, Hcal, Han. }
  rewrite (runLiveCalibration_start p c Hc Hcal Han). cbv zeta.
  unfold sweep_invariant in *. rewrite Hcal in Hinv. fields. rewrite Hinv.
  eexists (nextTimer p), (S (nextTimer p)), _.
  split; [lia|]. split; [by rewrite lookup_insert_eq|]. split.
  - intros id H1 H2. by rewrite !lookup_insert_ne, lookup_empty by done.
  - unfold ticking. fields.
    rewrite lookup_insert_ne, lookup_insert_eq by lia. lia.
Qed.

Lemma invariant_fire id p : sweep_invariant p -> sweep_invariant (fire id p).
Proof.
  intros Hinv. unfold sweep_invariant in Hinv.
  destruct (isCalibrating p) eqn:Hcal.
  2:{ unfold fire. rewrite Hinv, lookup_empty.
      unfold sweep_invariant. by rewrite Hcal. }
  destruct Hinv as (iid & tid & fa & Hne & Htid & Hother & Htick).
  destruct (decide (id = tid)) as [->|Hnt].
  { unfold fire. rewrite Htid. unfold sweep_invariant. fields.
    apply map_eq. intros k. rewrite lookup_empty.
    destruct (decide (k = iid)) as [->|]; [by rewrite lookup_delete_eq|].
    rewrite lookup_delete_ne by done.
    destruct (decide (k = tid)) as [->|]; [by rewrite lookup_delete_eq|].
    rewrite lookup_delete_ne by done. by apply Hother. }
  destruct (decide (id = iid)) as [->|Hni].
  2:{ unfold fire. rewrite (Hother id) by done.
      unfold sweep_invariant. rewrite Hcal. by exists iid, tid, fa. }
  unfold ticking in Htick. unfold fire.
  destruct (timers p !! iid) as [[a per step|? ?]|] eqn:Hi; [|done|].
  2:{ unfold sweep_invariant. rewrite Hcal. exists iid, tid, fa.
      repeat split; try done. unfold ticking. by rewrite Hi. }
  destruct Htick as [Hstep Hfreq].
  destruct (Z.ltb_spec FREQ_MAX (10 + (step + 1) * 200)) as [Hover|Hin];
    unfold FREQ_MAX in *; unfold sweep_invariant; fields; rewrite Hcal;
    exists iid, tid, fa; (split; [done|]).
  - split; [by rewrite lookup_delete_ne, lookup_insert_ne by done|]. split.
    + intros k H1 H2. rewrite lookup_delete_ne, lookup_insert_ne by done.
      by apply Hother.
    + unfold ticking. fields. rewrite lookup_delete_eq. lia.
  - split; [by rewrite lookup_insert_ne by done|]. split.
    + intros k H1 H2. rewrite lookup_insert_ne by done. by apply Hother.
    + unfold ticking. fields. rewrite lookup_insert_eq. lia.
Qed.

Lemma invariant_handle e p : sweep_invariant p -> sweep_invariant (handle e p).
Proof. destruct e; [apply invariant_click|apply invariant_fire]. Qed.

Lemma reachable_invariant p : reachable p -> sweep_invariant p.
Proof.
  induction 1 as [|p e _ IH]; [reflexivity|by apply invariant_handle].
Qed.

Lemma displayed_bounds p v :
  sweep_invariant p -> displayed p = Some v -> 10 <= v <= 11810.
Proof.
  unfold sweep_invariant, displayed. destruct (isCalibrating p); [|done].
  intros (iid & tid & fa & _ & _ & _ & Htick) [= <-]. unfold ticking in Htick.
  destruct (timers p !! iid) as [[a per step|? ?]|]; [lia|done|lia].
Qed.

Lemma displayed_step p e v v' :
  sweep_invariant p ->
  displayed p = Some v -> displayed (handle e p) = Some v' -> v <= v'.
Proof.
  intros Hinv Hv Hv'. pose proof Hinv as Hinv0.
  unfold displayed in Hv. unfold sweep_invariant in Hinv.
  destruct (isCalibrating p) eqn:Hcal; [|done]. injection Hv as <-.
  destruct e as [|id].
  { cbn [handle] in Hv'. unfold runLiveCalibration in Hv'.
    destruct (audioCtxRef p); rewrite ?Hcal in Hv'; cbn [orb] in Hv';
      unfold displayed in Hv'; rewrite Hcal in Hv'; injection Hv' as <-; lia. }
  destruct Hinv as (iid & tid & fa & Hne & Htid & Hother & Htick).
  cbn [handle] in Hv'. unfold fire in Hv'.
  destruct (decide (id = tid)) as [->|Hnt].
  { rewrite Htid in Hv'. unfold displayed in Hv'. fields. done. }
  destruct (decide (id = iid)) as [->|Hni].
  2:{ rewrite (Hother id) in Hv' by done. unfold displayed in Hv'.
      rewrite Hcal in Hv'. injection Hv' as <-. lia. }
  unfold ticking in Htick.
  destruct (timers p !! iid) as [[a per step|? ?]|] eqn:Hi; [|done|].
  2:{ unfold displayed in Hv'. rewrite Hcal in Hv'. injection Hv' as <-. lia. }
  destruct Htick as [Hstep Hfreq].
  destruct (Z.ltb_spec FREQ_MAX (10 + (step + 1) * 200)) as [Hover|Hin];
    unfold FREQ_MAX in *; unfold displayed in Hv'; fields;
    rewrite Hcal in Hv'; injection Hv' as <-; lia.
Qed.

Lemma fire_keeps_context id p : audioCtxRef (fire id p) = audioCtxRef p.
Proof.
  unfold fire. destruct (timers p !! id) as [[a per step|a iid]|]; try reflexivity.
  destruct (FREQ_MAX <? 10 + (step + 1) * 200); reflexivity.
Qed.

(** No event ever removes a connection from the audio graph. *)
Lemma connections_handle e p c :
  audioCtxRef p = Some c ->
  exists c', audioCtxRef (handle e p) = Some c' /\ connections c ⊆ connections c'.
Proof.
  intros Hc. destruct e as [|id]; cbn [handle].
  - destruct (isCalibrating p) eqn:Hcal.
    { exists c. unfold runLiveCalibration. by rewrite Hc, Hcal. }
    destruct (analyzerRef p) eqn:Han.
    2:{ exists c. unfold runLiveCalibration. by rewrite Hc, Hcal, Han. }
    rewrite (runLiveCalibration_start p c Hc Hcal Han). cbv zeta.
    eexists. split; [reflexivity|]. cbn [connections]. set_solver.
  - exists c. by rewrite fire_keeps_context.
Qed.

Lemma connections_handle_all es : forall p c,
  audioCtxRef p = Some c ->
  exists c', audioCtxRef (handle_all es p) = Some c' /\
             connections c ⊆ connections c'.
Proof.
  induction es as [|e es IH]; intros p c Hc.
  - by exists c.
  - destruct (connections_handle e p c Hc) as (c1 & Hc1 & Hsub).
    destruct (IH _ c1 Hc1) as (c2 & Hc2 & Hsub2).
    exists c2. split; [exact Hc2|]. set_solver.
Qed.

Lemma started_reachable : reachable started.
Proof. apply (reach_step mounted Click), reach_mounted. Qed.

(** The loop schedules 60 steps where the formula
    [ceil((12000 - 10) / 200) + 1] announces 61. *)
Lemma scheduled_steps_not_61 :
  fst (ramp (1 # 10) (1 # 20) 10 0 []) = 60 /\
  length (scheduled_events started 0) = 60%nat /\
  announced_steps 10 FREQ_MAX 200 = 61 /\
  fst (ramp (1 # 10) (1 # 20) 10 0 []) <> announced_steps 10 FREQ_MAX 200.
Proof.
  rewrite ramp_spec. cbn [fst].
  change (trip_count 10) with 60. change (announced_steps 10 FREQ_MAX 200) with 61.
  split; [reflexivity|]. split; [|split; [reflexivity|lia]].
  unfold scheduled_events, started.
  rewrite (runLiveCalibration_start mounted fresh_context); [|reflexivity..].
  cbv zeta. cbn [audioCtxRef oscillators nextNode fresh_context].
  rewrite lookup_insert_eq. reflexivity.
Qed.

(** C4, amended.  Whatever the start time and step duration, the ramp
    loop from 10 Hz to 12000 Hz in increments of 200 Hz schedules
    [floor((12000 - 10) / 200) + 1 = 60] steps, at the frequencies
    [10 + 200 k] for [k = 0 .. 59], step [k] at
    [startTime + k * stepDuration]. *)
Theorem scheduled_step_count (startTime stepDuration : Q) :
  fst (ramp startTime stepDuration 10 0 []) = (FREQ_MAX - 10) / 200 + 1 /\
  fst (ramp startTime stepDuration 10 0 []) = 60 /\
  length (snd (ramp startTime stepDuration 10 0 [])) = 60%nat /\
  snd (ramp startTime stepDuration 10 0 []) =
    (fun k => (10 + 200 * k, (startTime + inject_Z (0 + k) * stepDuration)%Q))
      <$> seqZ 0 60.
Proof.
  rewrite ramp_spec. cbn [fst snd app].
  change (trip_count 10) with 60.
  split; [reflexivity|]. split; [reflexivity|].
  split; [by rewrite length_fmap, length_seqZ|reflexivity].
Qed.

(** The punctual run of the first sweep: sixty interval ticks, then the
    timeout. *)
Lemma punctual_trace :
  displayed_values (started :: states_of punctual_run started)
    = ((fun k => 10 + 200 * k) <$> seqZ 0 60) ++ [11810] /\
  isCalibrating (handle_all punctual_run started) = false /\
  map_to_list (timers (handle_all punctual_run started)) = [].
Proof. repeat split; vm_compute; reflexivity. Qed.

(** On a punctual host the displayed frequency climbs to 11810 Hz and the
    sweep then returns to idle: no value of 11990 or more is ever shown. *)
Lemma sweep_stops_at_11810 :
  isCalibrating started = true /\
  isCalibrating (handle_all punctual_run started) = false /\
  Forall (fun v => v < 11990)
    (displayed_values (started :: states_of punctual_run started)) /\
  ~ Exists (fun v => 11990 <= v)
      (displayed_values (started :: states_of punctual_run started)).
Proof.
  destruct punctual_trace as (H & Hidle & _).
  split; [reflexivity|]. split; [exact Hidle|].
  assert (HF : Forall (fun v => v < 11990)
                 (displayed_values (started :: states_of punctual_run started))).
  { rewrite H. apply Forall_forall. intros v Hv.
    apply elem_of_app in Hv as [Hv|Hv].
    - apply list_elem_of_fmap in Hv as (k & -> & Hk).
      apply elem_of_seqZ in Hk. lia.
    - apply list_elem_of_singleton in Hv. lia. }
  split; [exact HF|].
  intros HE. apply Exists_exists in HE as (v & Hv & Hge).
  rewrite Forall_forall in HF. specialize (HF v Hv). lia.
Qed.

(** C5, amended.  In every reachable state of a running sweep the
    displayed frequency lies between 10 and 11810 Hz, and no event makes
    it smaller while the sweep keeps running; on a punctual host the
    display shows 10, 210, ..., 11810 and the sweep then returns to idle
    with no timer left. *)
Theorem sweep_display (p : Player) (e : Event) (v : Z) :
  reachable p -> displayed p = Some v ->
  10 <= v <= 11810 /\
  (forall v', displayed (handle e p) = Some v' -> v <= v') /\
  displayed_values (started :: states_of punctual_run started)
    = ((fun k => 10 + 200 * k) <$> seqZ 0 60) ++ [11810] /\
  isCalibrating (handle_all punctual_run started) = false /\
  map_to_list (timers (handle_all punctual_run started)) = [].
Proof.
  intros Hr Hv. pose proof (reachable_invariant p Hr) as Hinv.
  split; [by eapply displayed_bounds|].
  split; [intros v' Hv'; by eapply displayed_step|].
  exact punctual_trace.
Qed.

Lemma sweep_display_witness :
  displayed started = Some 10 /\
  10 <= 10 <= 11810 /\
  (forall v', displayed (handle (Fire 0) started) = Some v' -> 10 <= v').
Proof.
  split; [reflexivity|].
  destruct (sweep_display started (Fire 0) 10) as (H1 & H2 & _).
  - apply (reach_step mounted Click), reach_mounted.
  - reflexivity.
  - split; [exact H1|exact H2].
Defined.

(** C7. The sweep has two states and moves idle -> running -> idle: a
    click while a sweep is running leaves the whole component state
    unchanged (flag, displayed frequency, audio graph with its scheduled
    ramp, timers); only a click starts a sweep, and only the sweep's own
    timeout ends it. *)
Theorem sweep_reentrancy_guard (p : Player) (e : Event) :
  reachable p ->
  (isCalibrating p = true -> handle Click p = p) /\
  (isCalibrating p = false -> isCalibrating (handle e p) = true -> e = Click) /\
  (isCalibrating p = true -> isCalibrating (handle e p) = false ->
   exists id fireAt iid,
     e = Fire id /\ timers p !! id = Some (Timeout fireAt iid)).
Proof.
  intros Hr. pose proof (reachable_invariant p Hr) as Hinv.
  assert (Hguard : isCalibrating p = true -> handle Click p = p).
  { intros Hcal. cbn [handle]. unfold runLiveCalibration.
    destruct (audioCtxRef p); [|reflexivity]. by rewrite Hcal. }
  split; [exact Hguard|]. split.
  - intros Hidle Hrun. destruct e as [|id]; [reflexivity|].
    unfold sweep_invariant in Hinv. rewrite Hidle in Hinv.
    cbn [handle] in Hrun. unfold fire in Hrun.
    rewrite Hinv, lookup_empty in Hrun. congruence.
  - intros Hrun Hidle. destruct e as [|id].
    { rewrite (Hguard Hrun) in Hidle. congruence. }
    cbn [handle] in Hidle. unfold fire in Hidle.
    destruct (timers p !! id) as [[a per step|a iid]|] eqn:Hid.
    + destruct (FREQ_MAX <? 10 + (step + 1) * 200); fields; congruence.
    + by exists id, a, iid.
    + congruence.
Qed.

Lemma sweep_reentrancy_guard_witness :
  (isCalibrating started = true -> handle Click started = started) /\
  (isCalibrating started = false ->
   isCalibrating (handle (Fire 1) started) = true -> Fire 1 = Click) /\
  (isCalibrating started = true ->
   isCalibrating (handle (Fire 1) started) = false ->
   exists id fireAt iid,
     Fire 1 = Fire id /\ timers started !! id = Some (Timeout fireAt iid)).
Proof.
  apply (sweep_reentrancy_guard started (Fire 1)).
  apply (reach_step mounted Click), reach_mounted.
Defined.

(** After the first sweep has run to its end and the component is idle
    again, the gain stage of the sweep is still connected to the output
    and to the analyser. *)
Lemma sweep_path_still_connected :
  isCalibrating (handle_all punctual_run started) = false /\
  exists c,
    audioCtxRef (handle_all punctual_run started) = Some c /\
    (Gain 1, Destination) ∈ connections c /\
    (Gain 1, Analyser) ∈ connections c /\
    (Oscillator 0, Gain 1) ∈ connections c.
Proof.
  split; [vm_compute; reflexivity|].
  destruct (connections_handle_all punctual_run started
              (mkAudio Running 0 2
                 (<[0%nat := mkOsc "sine" (ramp_events (0 + (1 # 10)))
                               (Some (0 + (1 # 10))%Q)
                               (Some (0 + (1 # 10) + inject_Z 60 * (1 # 20))%Q)]> ∅)
                 (<[1%nat := (15 # 100)%Q]> ∅)
                 ({[ (Gain 1, Analyser) ]} ∪
                  ({[ (Gain 1, Destination) ]} ∪
                   ({[ (Oscillator 0, Gain 1) ]} ∪ ∅)))))
    as (c & Hc & Hsub).
  { unfold started.
    rewrite (runLiveCalibration_start mounted fresh_context); reflexivity. }
  exists c. split; [exact Hc|]. cbn [connections] in Hsub. clear Hc.
  repeat split; apply Hsub; set_solver.
Qed.

(** C8, amended.  A sweep started from idle creates an oscillator that is
    scheduled to stop at the end of its ramp, and connects it through a
    gain stage to the output and to the analyser; whatever happens
    afterwards (the sweep running to its end, later sweeps), these three
    connections stay in the audio graph: nothing disconnects them. *)
Theorem sweep_path_never_disconnected
  (p : Player) (c : AudioContext) (es : list Event) :
  audioCtxRef p = Some c -> isCalibrating p = false -> analyzerRef p = true ->
  (exists c1 o,
     audioCtxRef (runLiveCalibration p) = Some c1 /\
     oscillators c1 !! nextNode c = Some o /\
     startAt o = Some (currentTime c + (1 # 10))%Q /\
     stopAt o = Some (currentTime c + (1 # 10) + inject_Z 60 * (1 # 20))%Q) /\
  exists c',
    audioCtxRef (handle_all es (runLiveCalibration p)) = Some c' /\
    (Oscillator (nextNode c), Gain (S (nextNode c))) ∈ connections c' /\
    (Gain (S (nextNode c)), Destination) ∈ connections c' /\
    (Gain (S (nextNode c)), Analyser) ∈ connections c'.
Proof.
  intros Hc Hcal Han.
  pose proof (runLiveCalibration_start p c Hc Hcal Han) as Hstart.
  cbv zeta in Hstart. split.
  - rewrite Hstart. eexists _, _. split; [reflexivity|].
    cbn [oscillators]. rewrite lookup_insert_eq. by repeat split.
  - destruct (connections_handle_all es (runLiveCalibration p) _
                ltac:(rewrite Hstart; reflexivity)) as (c' & Hc' & Hsub).
    exists c'. split; [exact Hc'|]. cbn [connections] in Hsub. set_solver.
Qed.

Lemma sweep_path_never_disconnected_witness :
  exists c',
    audioCtxRef (handle_all punctual_run (runLiveCalibration mounted)) = Some c' /\
    (Oscillator 0, Gain 1) ∈ connections c' /\
    (Gain 1, Destination) ∈ connections c' /\
    (Gain 1, Analyser) ∈ connections c'.
Proof.
  apply (sweep_path_never_disconnected mounted fresh_context punctual_run);
    reflexivity.
Defined.

End CalibrationProps.

(** ** The folder scanner *)

Module LocalServiceProps.
Import Types LocalService.
Local Open Scope string_scope.

Lemma length_toLowerCase s : String.length (toLowerCase s) = String.length s.
Proof. induction s as [|c s IH]; cbn; congruence. Qed.

Lemma append_cons c a b : String c a ++ b = String c (a ++ b).
Proof. reflexivity. Qed.

Lemma append_empty b : "" ++ b = b.
Proof. reflexivity. Qed.

Lemma toLowerCase_app a b : toLowerCase (a ++ b) = toLowerCase a ++ toLowerCase b.
Proof.
  induction a as [|c a IH]; [reflexivity|].
  rewrite append_cons. cbn [toLowerCase]. by rewrite append_cons, IH.
Qed.

Lemma toLowerCase_substring s : forall k m,
  toLowerCase (substring k m s) = substring k m (toLowerCase s).
Proof.
  induction s as [|c s IH]; intros [|k] [|m]; cbn; try reflexivity.
  - by rewrite IH.
  - apply IH.
  - apply IH.
Qed.

Lemma substring_suffix a b :
  substring (String.length a) (String.length b) (a ++ b) = b.
Proof.
  induction a as [|c a IH].
  - rewrite append_empty. cbn [String.length].
    induction b as [|c b IHb]; cbn; congruence.
  - rewrite append_cons. cbn [String.length substring]. exact IH.
Qed.

Lemma substring_split s : forall k m,
  (k + m = String.length s)%nat -> s = substring 0 k s ++ substring k m s.
Proof.
  induction s as [|c s IH]; intros k m H; cbn in H.
  - assert (k = 0%nat) by lia. assert (m = 0%nat) by lia. by subst.
  - destruct k as [|k].
    + cbn in H. subst m. cbn [substring]. rewrite append_empty. f_equal.
      specialize (IH 0%nat (String.length s) eq_refl).
      rewrite IH at 1. destruct s; reflexivity.
    + cbn [substring]. rewrite append_cons. f_equal. apply IH. lia.
Qed.

Lemma length_app_string a b :
  String.length (a ++ b) = (String.length a + String.length b)%nat.
Proof.
  induction a as [|c a IH]; [reflexivity|].
  rewrite append_cons. cbn [String.length]. by rewrite IH.
Qed.

Lemma endsWith_spec s suffix :
  endsWith s suffix = true <-> exists stem, s = stem ++ suffix.
Proof.
  unfold endsWith. rewrite andb_true_iff, Nat.leb_le, String.eqb_eq. split.
  - intros [Hle Hsub].
    exists (substring 0 (String.length s - String.length suffix) s).
    rewrite <- Hsub at 2. apply substring_split. lia.
  - intros [stem ->]. rewrite length_app_string. split; [lia|].
    replace (String.length stem + String.length suffix - String.length suffix)%nat
      with (String.length stem) by lia.
    apply substring_suffix.
Qed.

Lemma ends_with_mp3_spec s :
  endsWith (toLowerCase s) ".mp3" = true <-> ends_with_mp3 s.
Proof.
  unfold ends_with_mp3. split.
  - intros H. pose proof H as H0. unfold endsWith in H.
    rewrite andb_true_iff, Nat.leb_le, String.eqb_eq in H. destruct H as [Hle Hsub].
    rewrite length_toLowerCase in Hle, Hsub.
    exists (substring 0 (String.length s - 4) s), (substring (String.length s - 4) 4 s).
    split.
    + apply substring_split. cbn in Hle. lia.
    + rewrite toLowerCase_substring. exact Hsub.
  - intros (stem & ext & -> & Hext). apply endsWith_spec.
    exists (toLowerCase stem). by rewrite toLowerCase_app, Hext.
Qed.

Lemma is_mp3_accepted f : is_mp3 f = true <-> accepted f.
Proof.
  unfold is_mp3, accepted.
  by rewrite orb_true_iff, ends_with_mp3_spec, String.eqb_eq.
Qed.

Lemma scan_files_spec uuids fl : forall acc,
  map file (scan_files uuids fl acc)
    = (map file acc ++ List.filter is_mp3 fl)%list /\
  (Forall faithful acc -> Forall faithful (scan_files uuids fl acc)).
Proof.
  induction fl as [|f fl IH]; intros acc; cbn [scan_files List.filter].
  - by rewrite app_nil_r.
  - destruct (is_mp3 f).
    + destruct (IH (acc ++ [to_audio (uuids (length acc)) f])%list) as [E F].
      split.
      * rewrite E, map_app, <- app_assoc. reflexivity.
      * intros Hacc. apply F. apply Forall_app. split; [exact Hacc|].
        constructor; [|constructor]. split; reflexivity.
    + apply IH.
Qed.

Section Sorting.
Context {A : Type} (cmp : A -> A -> Z).
Let le (a b : A) : Prop := (cmp a b <= 0)%Z.
Hypothesis antisym : forall a b, (0 < cmp a b)%Z -> (cmp b a <= 0)%Z.
Hypothesis trans : forall a b c, le a b -> le b c -> le a c.

Lemma insert_by_perm x l : Permutation (insert_by cmp x l) (x :: l).
Proof.
  induction l as [|y l IH]; cbn [insert_by]; [reflexivity|].
  destruct (0 <? cmp x y)%Z; [|reflexivity].
  rewrite IH. apply perm_swap.
Qed.

Lemma sort_by_perm l : Permutation (sort_by cmp l) l.
Proof.
  induction l as [|x l IH]; cbn [sort_by]; [reflexivity|].
  rewrite insert_by_perm. by constructor.
Qed.

Lemma insert_by_sorted x l :
  StronglySorted le l -> StronglySorted le (insert_by cmp x l).
Proof.
  induction 1 as [|y l Hs IH Hall]; cbn [insert_by].
  - repeat constructor.
  - destruct (Z.ltb_spec 0 (cmp x y)) as [Hgt|Hle].
    + constructor; [exact IH|].
      rewrite (Forall_forall (le y)). intros z Hz.
      apply list_elem_of_In in Hz.
      apply (Permutation_in _ (insert_by_perm x l)) in Hz.
      destruct Hz as [<-|Hz]; [by apply antisym|].
      rewrite (Forall_forall (le y)) in Hall. apply Hall.
      by apply list_elem_of_In.
    + constructor; [by constructor|].
      constructor; [exact Hle|].
      eapply Forall_impl; [exact Hall|]. intros z Hz. by apply (trans x y z).
Qed.

Lemma sort_by_sorted l : StronglySorted le (sort_by cmp l).
Proof.
  induction l as [|x l IH]; cbn [sort_by]; [constructor|].
  by apply insert_by_sorted.
Qed.
End Sorting.

Lemma code_unit_consistent : consistent code_unit_compare.
Proof.
  unfold consistent, code_unit_compare.
  change String.compare with String_as_OT.cmp. split.
  - intros a b. rewrite (String_as_OT.cmp_antisym b a).
    destruct (String_as_OT.cmp a b); cbn; lia.
  - intros a b c.
    destruct (String_as_OT.cmp a b) eqn:Hab; [| |lia]; intros _;
      (destruct (String_as_OT.cmp b c) eqn:Hbc; [| |lia]); intros _.
    + apply String_as_OT.cmp_eq in Hab, Hbc. subst.
      rewrite (proj2 (String_as_OT.cmp_eq c c) eq_refl). lia.
    + apply String_as_OT.cmp_eq in Hab. subst. rewrite Hbc. lia.
    + apply String_as_OT.cmp_eq in Hbc. subst. rewrite Hab. lia.
    + apply String_as_OT.cmp_lt in Hab, Hbc.
      pose proof (String_as_OT.lt_trans _ _ _ Hab Hbc) as Hac.
      apply String_as_OT.cmp_lt in Hac. rewrite Hac. lia.
Qed.

Example sample_scan :
  map (fun a => (id a, name a, size a, type a, relativePath a))
    (processLocalFiles code_unit_compare sample_uuids sample_files)
  = [ ("uuid-2", "lark.mp3", "1024", "audio/mpeg", "birds/lark.mp3");
      ("uuid-1", "robin", "4096", "audio/mpeg", "robin");
      ("uuid-0", "wren.MP3", "2048", "audio/mpeg", "birds/wren.MP3") ].
Proof. vm_compute. reflexivity. Qed.

(** C10. For every file list, [processLocalFiles] returns exactly the
    files whose name ends with ".mp3" in any letter case or whose MIME
    type is "audio/mpeg" (each as often as it occurs in the input), every
    entry carrying the name and the size of its file, in ascending order
    of names under the collation; no other file appears. *)
Theorem processLocalFiles_spec (localeCompare : string -> string -> Z)
  (uuids : nat -> string) (fileList : list DOM.File) :
  consistent localeCompare ->
  Permutation (map file (processLocalFiles localeCompare uuids fileList))
    (List.filter is_mp3 fileList) /\
  (forall f, In f (map file (processLocalFiles localeCompare uuids fileList))
             <-> In f fileList /\ accepted f) /\
  Forall faithful (processLocalFiles localeCompare uuids fileList) /\
  StronglySorted (name_le localeCompare)
    (processLocalFiles localeCompare uuids fileList).
Proof.
  intros [Hanti Htrans]. unfold processLocalFiles.
  set (cmp := fun a b : AudioFile => localeCompare (name a) (name b)).
  pose proof (sort_by_perm cmp (scan_files uuids fileList [])) as Hperm.
  destruct (scan_files_spec uuids fileList []) as [Hfiles Hfaith].
  cbn [map app] in Hfiles.
  assert (Hmap : Permutation
            (map file (sort_by cmp (scan_files uuids fileList [])))
            (List.filter is_mp3 fileList)).
  { rewrite <- Hfiles. by apply Permutation_map. }
  split; [exact Hmap|]. split; [|split].
  - intros f. rewrite <- is_mp3_accepted, <- filter_In. split.
    + apply Permutation_in. exact Hmap.
    + apply Permutation_in. by symmetry.
  - eapply Permutation_Forall; [symmetry; exact Hperm|].
    apply Hfaith. constructor.
  - apply (sort_by_sorted cmp).
    + intros a b. apply Hanti.
    + intros a b c. apply Htrans.
Qed.

Lemma processLocalFiles_spec_witness :
  consistent code_unit_compare /\
  map name (processLocalFiles code_unit_compare sample_uuids sample_files)
    = ["lark.mp3"; "robin"; "wren.MP3"] /\
  StronglySorted (name_le code_unit_compare)
    (processLocalFiles code_unit_compare sample_uuids sample_files).
Proof.
  split; [exact code_unit_consistent|]. split; [reflexivity|].
  apply (processLocalFiles_spec code_unit_compare sample_uuids sample_files).
  exact code_unit_consistent.
Defined.

End LocalServiceProps.

(** ** The snapshot exporter *)

Module SnapshotProps.
Import Canvas Types Snapshot.
Local Open Scope string_scope.

(** C9. With neither a track nor a microphone no surface is attached and
    a snapshot request does nothing: no file, no failure.  The same holds
    whenever the target canvas is missing.  With a surface attached the
    request hands over exactly one file, the PNG encoding of that surface.
    Its name is [spectrogram-<name>-<Date.now()>.png] with the name of the
    track when a track with a non-empty name is loaded, and
    [spectrogram-live-<Date.now()>.png] when there is no track or its name
    is empty. *)
Theorem takeSnapshot_spec (v : View) (nowMs : Z) :
  rendered v ->
  (track v = None -> micStream v = false -> takeSnapshot v nowMs = []) /\
  (targetCanvas v = None -> takeSnapshot v nowMs = []) /\
  (forall canvas, targetCanvas v = Some canvas ->
     exists d,
       takeSnapshot v nowMs = [d] /\
       mime (href d) = "image/png" /\
       image (href d) = bitmap canvas /\
       (forall t, track v = Some t -> name t <> "" ->
          download d
            = "spectrogram-" ++ name t ++ "-" ++ pretty nowMs ++ ".png") /\
       (track v = None \/ (exists t, track v = Some t /\ name t = "") ->
          download d = "spectrogram-live-" ++ pretty nowMs ++ ".png")).
Proof.
  intros (Hnone & _ & _).
  assert (Hmissing : targetCanvas v = None -> takeSnapshot v nowMs = []).
  { intros H. unfold takeSnapshot. by rewrite H. }
  split; [|split; [exact Hmissing|]].
  - intros Ht Hm. apply Hmissing. destruct (Hnone Ht Hm) as [Hl Hs].
    unfold targetCanvas. by rewrite Hm.
  - intros canvas Hc. unfold takeSnapshot. rewrite Hc.
    eexists. split; [reflexivity|]. cbn [download href mime image toDataURL].
    split; [reflexivity|]. split; [reflexivity|].
    unfold trackNameOrLive, LocalService.or_else. split.
    + intros t Ht Hname. rewrite Ht.
      destruct (String.eqb_spec (name t) ""); [contradiction|reflexivity].
    + intros [Ht|(t & Ht & Hname)]; rewrite Ht; [reflexivity|].
      rewrite Hname. reflexivity.
Qed.

Lemma takeSnapshot_spec_witness :
  takeSnapshot idle_view 1700000000000 = [] /\
  (exists d,
    takeSnapshot live_view 1700000000000 = [d] /\
    download d = "spectrogram-live-1700000000000.png") /\
  (exists d,
    takeSnapshot track_view 1700000000000 = [d] /\
    download d = "spectrogram-wren.MP3-1700000000000.png").
Proof.
  split; [|split].
  - apply (takeSnapshot_spec idle_view 1700000000000); [|reflexivity..].
    repeat split; intros; reflexivity.
  - destruct (takeSnapshot_spec live_view 1700000000000) as (_ & _ & H).
    + repeat split; intros; try reflexivity; discriminate.
    + destruct (H (blank 2 2) eq_refl) as (d & Hd & _ & _ & _ & Hname).
      exists d. split; [exact Hd|]. rewrite Hname; [reflexivity|by left].
  - destruct (takeSnapshot_spec track_view 1700000000000) as (_ & _ & H).
    + repeat split; intros; try reflexivity; discriminate.
    + destruct (H (blank 2 2) eq_refl) as (d & Hd & _ & _ & Hname & _).
      exists d. split; [exact Hd|].
      rewrite (Hname _ eq_refl); [reflexivity|discriminate].
Defined.

End SnapshotProps.


(** ** The live effect *)

Module LiveEffectProps.
Import Canvas Waterfall CanvasProps WaterfallProps LiveEffect Colormap.

Lemma tick_column (f : Frame) (s : Live) :
  well_formed (ctx s) ->
  (2 <= width (ctx s))%nat -> (1 <= height (ctx s))%nat ->
  byte_data (dataArray f) ->
  exists s',
    renderLive Colormap.generateBirdSongColormap f s = Some (tt, s') /\
    width (ctx s') = width (ctx s) /\
    height (ctx s') = height (ctx s) /\
    well_formed (ctx s') /\
    bitmap (ctx s') =
      drop 1 (bitmap (ctx s))
      ++ [painted_column Colormap.generateBirdSongColormap (height (ctx s)) f].
Proof.
  intros Hwf HW HH Hb.
  destruct (renderLive_run _ f ColormapProps.colormap_length Hb s Hwf HW HH)
    as (s' & Hrun & Hw & Hh & Hbm).
  exists s'. repeat split; try assumption.
  - rewrite Hbm, Hw. by apply well_formed_tick.
  - rewrite Hbm, Hh. by apply well_formed_tick.
Qed.

Lemma drop_shift {A} (n : nat) (b : A) (bm cs : list A) (c : A) :
  drop n ((drop 1 (b :: bm) ++ [c]) ++ cs) = drop (S n) ((b :: bm) ++ c :: cs).
Proof. cbn [drop]. rewrite drop_0, <- app_assoc. reflexivity. Qed.

(** X1. After [n] ticks the canvas holds the last [width] columns of the
    sequence "initial columns, then one painted column per frame": the
    oldest [n] columns are gone, and once [n] reaches the width nothing of
    the initial content is left. *)
Theorem waterfall_history (frames : list Frame) : forall s : Live,
  well_formed (ctx s) ->
  (2 <= width (ctx s))%nat -> (1 <= height (ctx s))%nat ->
  Forall (fun f => byte_data (dataArray f)) frames ->
  exists s',
    run_frames Colormap.generateBirdSongColormap frames s = Some (tt, s') /\
    bitmap (ctx s') =
      drop (length frames)
        (bitmap (ctx s)
         ++ map (painted_column Colormap.generateBirdSongColormap (height (ctx s)))
              frames) /\
    ((width (ctx s) <= length frames)%nat ->
     bitmap (ctx s') =
       drop (length frames - width (ctx s))
         (map (painted_column Colormap.generateBirdSongColormap (height (ctx s)))
            frames)).
Proof.
  assert (Hmain : forall s : Live,
    well_formed (ctx s) ->
    (2 <= width (ctx s))%nat -> (1 <= height (ctx s))%nat ->
    Forall (fun f => byte_data (dataArray f)) frames ->
    exists s',
      run_frames Colormap.generateBirdSongColormap frames s = Some (tt, s') /\
      bitmap (ctx s') =
        drop (length frames)
          (bitmap (ctx s)
           ++ map (painted_column Colormap.generateBirdSongColormap (height (ctx s)))
                frames)).
  { induction frames as [|f frames IH]; intros s Hwf HW HH Hbytes.
    - exists s. split; [reflexivity|]. cbn. by rewrite app_nil_r.
    - inversion Hbytes as [|? ? Hf Hrest]; subst.
      destruct (tick_column f s Hwf HW HH Hf) as (s1 & Hrun & Hw & Hh & Hwf1 & Hb).
      destruct (IH s1 Hwf1 ltac:(lia) ltac:(lia) Hrest) as (s2 & Hrun2 & Hb2).
      exists s2. split.
      + cbn [run_frames]. unfold bind at 1. by rewrite Hrun.
      + rewrite Hb2, Hb, Hh. cbn [length map].
        destruct (bitmap (ctx s)) as [|b bm] eqn:Ebm.
        { destruct Hwf as [Hlen _]. rewrite Ebm in Hlen. cbn in Hlen. lia. }
        apply drop_shift. }
  intros s Hwf HW HH Hbytes.
  destruct (Hmain s Hwf HW HH Hbytes) as (s' & Hrun & Hb).
  exists s'. split; [exact Hrun|]. split; [exact Hb|].
  intros Hlong. rewrite Hb. destruct Hwf as [Hlen _].
  rewrite drop_app_ge by lia. by rewrite Hlen.
Qed.

Lemma sum_step_none (data : list Z) (idx : list nat) :
  foldl (fun acc i => match acc, data !! i with
                      | Some a, Some v => Some (a + v)
                      | _, _ => None
                      end) None idx = None.
Proof. induction idx as [|i idx IH]; [reflexivity|exact IH]. Qed.

Lemma sum_prefix (data : list Z) (n : nat) : forall (i : nat) (a : Z),
  foldl (fun acc i => match acc, data !! i with
                      | Some a, Some v => Some (a + v)
                      | _, _ => None
                      end) (Some a) (seq i n)
  = if decide (i + n <= length data)%nat
    then Some (a + sumZ (take n (drop i data)))
    else if decide (n = 0)%nat then Some a else None.
Proof.
  induction n as [|n IH]; intros i a.
  - cbn [seq foldl take sumZ foldr]. rewrite Z.add_0_r.
    destruct (decide (i + 0 <= length data)%nat); [reflexivity|].
    destruct (decide (0 = 0)%nat); [reflexivity|lia].
  - cbn [seq foldl].
    destruct (data !! i) as [v|] eqn:Ev.
    + rewrite IH. pose proof (lookup_lt_Some _ _ _ Ev) as Hlt.
      destruct (decide (S i + n <= length data)%nat) as [Hle|Hgt].
      * destruct (decide (i + S n <= length data)%nat); [|lia].
        rewrite (drop_S _ _ _ Ev). cbn [take sumZ foldr]. f_equal.
        unfold sumZ. lia.
      * destruct (decide (i + S n <= length data)%nat); [lia|].
        destruct (decide (n = 0)%nat); [lia|].
        destruct (decide (S n = 0)%nat); [lia|reflexivity].
    + rewrite sum_step_none. apply lookup_ge_None_1 in Ev.
      destruct (decide (i + S n <= length data)%nat); [lia|].
      destruct (decide (S n = 0)%nat); [lia|reflexivity].
Qed.

Lemma sum50_spec (data : list Z) :
  sum50 data = if decide (50 <= length data)%nat
               then Some (sumZ (take 50 data)) else None.
Proof.
  unfold sum50. rewrite (sum_prefix data 50 0 0). rewrite drop_0, Z.add_0_l.
  destruct (decide (0 + 50 <= length data)%nat);
    destruct (decide (50 <= length data)%nat); try lia; reflexivity.
Qed.

Lemma sumZ_bytes (l : list Z) :
  Forall (fun v => 0 <= v <= 255) l ->
  0 <= sumZ l <= 255 * Z.of_nat (length l).
Proof.
  induction 1 as [|v l Hv _ IH]; cbn [sumZ foldr length]; [lia|].
  fold (sumZ l). lia.
Qed.

(** The tick again, this time keeping track of the signal level. *)
Lemma renderLive_signal (f : Frame) (s : Live) :
  well_formed (ctx s) ->
  (2 <= width (ctx s))%nat -> (1 <= height (ctx s))%nat ->
  byte_data (dataArray f) ->
  exists s',
    renderLive Colormap.generateBirdSongColormap f s = Some (tt, s') /\
    signalLevel s'
      = option_map (fun v => (inject_Z v / 50)%Q) (sum50 (dataArray f)).
Proof.
  intros Hwf HW HH Hbytes.
  destruct (shift_left (ctx s) Hwf HW HH) as (img & Hget & Hput).
  destruct Hwf as [Hlen Hcols].
  destruct (lookup_lt_is_Some_2 (bitmap (ctx s)) (width (ctx s) - 1))
    as [lastc Hlast]; [lia|].
  assert (Hdrop : drop (width (ctx s) - 1) (bitmap (ctx s)) = [lastc]).
  { apply list_eq. intros [|k].
    - rewrite lookup_drop, Nat.add_0_r. exact Hlast.
    - rewrite lookup_drop. cbn. apply lookup_ge_None_2. lia. }
  assert (Hll : length lastc = height (ctx s)).
  { rewrite Forall_forall in Hcols. apply Hcols. by eapply list_elem_of_lookup_2. }
  set (pre := drop 1 (bitmap (ctx s))).
  assert (Hpre : Z.of_nat (width (ctx s)) - 1 = Z.of_nat (length pre)).
  { unfold pre. rewrite length_drop. lia. }
  set (s1 := mkLive (set_bitmap (pre ++ [replicate (height (ctx s)) black])
                       (set_fillStyle black (ctx s)))
               (option_map (fun v => (inject_Z v / 50)%Q) (sum50 (dataArray f)))).
  destruct (for_loop_last _ f ColormapProps.colormap_length Hbytes
              (Z.to_nat (maxFreqIndex f)) s1 pre _ 0 eq_refl)
    as (s2 & Hrun & _ & _ & Hs & _).
  exists s2. split; [|exact Hs].
  unfold renderLive. unfold bind at 1. unfold get at 1. cbv beta iota.
  unfold bind at 1. unfold on_ctx at 1. rewrite Hget.
  unfold bind at 1. unfold on_ctx at 1. cbn [ctx signalLevel].
  rewrite Hput, Hdrop. fold pre.
  unfold bind at 1. unfold on_ctx at 1, setFillStyle, modify. cbn [ctx signalLevel].
  unfold bind at 1. unfold on_ctx at 1. cbn [ctx signalLevel].
  rewrite Hpre.
  rewrite (fillRect_last _ pre lastc) by reflexivity.
  cbn [fillStyle set_fillStyle set_bitmap].
  rewrite fill_band_black_full by exact Hll.
  unfold bind at 1. unfold setSignalLevel, modify. cbn [ctx signalLevel].
  exact Hrun.
Qed.

(** X2. A tick sets the signal level to the mean of the first 50 bins,
    a value between 0 and 255; with fewer than 50 bins the level is NaN. *)
Theorem signal_level_mean (f : Frame) (s : Live) :
  well_formed (ctx s) ->
  (2 <= width (ctx s))%nat -> (1 <= height (ctx s))%nat ->
  byte_data (dataArray f) ->
  exists s',
    renderLive Colormap.generateBirdSongColormap f s = Some (tt, s') /\
    ((50 <= length (dataArray f))%nat ->
     signalLevel s'
       = Some (inject_Z (sumZ (take 50 (dataArray f))) / 50)%Q /\
     0 <= sumZ (take 50 (dataArray f)) <= 255 * 50) /\
    ((length (dataArray f) < 50)%nat -> signalLevel s' = None).
Proof.
  intros Hwf HW HH Hbytes.
  destruct (renderLive_signal f s Hwf HW HH Hbytes) as (s' & Hrun & Hs).
  exists s'. split; [exact Hrun|]. rewrite Hs, sum50_spec. split.
  - intros Hlen. destruct (decide (50 <= length (dataArray f))%nat); [|lia].
    split; [reflexivity|].
    pose proof (sumZ_bytes (take 50 (dataArray f))) as Hb.
    rewrite length_take in Hb.
    replace (50 `min` length (dataArray f))%nat with 50%nat in Hb by lia.
    apply Hb. by apply Forall_take.
  - intros Hlen. destruct (decide (50 <= length (dataArray f))%nat); [lia|].
    reflexivity.
Qed.

(** X3. Setting up the live effect, which happens when the microphone
    starts and again whenever the gain changes, paints the whole canvas
    black: the waterfall drawn so far is wiped. *)
Theorem attach_blanks (c : Context2D) :
  well_formed c ->
  attach c = Some (tt, blank (width c) (height c)).
Proof.
  intros [Hlen Hcols]. unfold attach, bind, get, setFillStyle, fillRect, modify.
  unfold blank, set_bitmap, set_fillStyle.
  cbn [width height fillStyle bitmap]. do 3 f_equal.
  apply list_eq. intros i. rewrite list_lookup_imap.
  destruct (decide (i < width c)%nat) as [Hi|Hi].
  - rewrite lookup_replicate_2 by done.
    destruct (lookup_lt_is_Some_2 (bitmap c) i) as [col Hcol]; [lia|].
    rewrite Hcol. cbn.
    destruct (Z.leb_spec 0 (Z.of_nat i)); [|lia].
    destruct (Z.ltb_spec (Z.of_nat i) (0 + Z.of_nat (width c))); [|lia].
    cbn [andb]. f_equal. apply fill_band_black_full.
    rewrite Forall_forall in Hcols. apply Hcols. by eapply list_elem_of_lookup_2.
  - rewrite lookup_ge_None_2 by lia. cbn. symmetry.
    apply lookup_ge_None_2. rewrite length_replicate. lia.
Qed.

Lemma waterfall_history_witness :
  exists s',
    run_frames Colormap.generateBirdSongColormap
      [sample_frame; narrowband_frame; sample_frame; sample_frame]
      (mkLive sample_canvas None) = Some (tt, s') /\
    bitmap (ctx s') =
      drop 4
        (bitmap sample_canvas
         ++ map (painted_column Colormap.generateBirdSongColormap 4)
              [sample_frame; narrowband_frame; sample_frame; sample_frame]) /\
    ((3 <= 4)%nat ->
     bitmap (ctx s') =
       drop (4 - 3)
         (map (painted_column Colormap.generateBirdSongColormap 4)
            [sample_frame; narrowband_frame; sample_frame; sample_frame])).
Proof.
  apply (waterfall_history
           [sample_frame; narrowband_frame; sample_frame; sample_frame]
           (mkLive sample_canvas None)).
  - split; [reflexivity|]. repeat constructor.
  - cbn. lia.
  - cbn. lia.
  - assert (Hs : byte_data (dataArray sample_frame)).
    { unfold byte_data, sample_frame. cbn [dataArray].
      repeat (constructor; [lia|]). constructor. }
    assert (Hn : byte_data (dataArray narrowband_frame)).
    { unfold byte_data, narrowband_frame. cbn [dataArray].
      apply Forall_replicate. lia. }
    repeat (constructor; [assumption|]). constructor.
Defined.

Lemma signal_level_mean_witness :
  exists s',
    renderLive Colormap.generateBirdSongColormap loud_narrowband_frame
      (mkLive sample_canvas None) = Some (tt, s') /\
    ((50 <= length (dataArray loud_narrowband_frame))%nat ->
     signalLevel s'
       = Some (inject_Z (sumZ (take 50 (dataArray loud_narrowband_frame))) / 50)%Q /\
     0 <= sumZ (take 50 (dataArray loud_narrowband_frame)) <= 255 * 50) /\
    ((length (dataArray loud_narrowband_frame) < 50)%nat -> signalLevel s' = None).
Proof.
  apply (signal_level_mean loud_narrowband_frame (mkLive sample_canvas None)).
  - split; [reflexivity|]. repeat constructor.
  - cbn. lia.
  - cbn. lia.
  - unfold byte_data, loud_narrowband_frame. cbn [dataArray].
    apply Forall_replicate. lia.
Defined.

Lemma attach_blanks_witness :
  attach sample_canvas = Some (tt, blank 3 4).
Proof.
  apply (attach_blanks sample_canvas).
  split; [reflexivity|]. repeat constructor.
Defined.

(** A row that ends above the rectangle is not covered. *)
Lemma coverage_row_above y h r :
  (0 <= h)%Q -> (inject_Z (Z.of_nat r) + 1 <= y)%Q -> (coverage y h r == 0)%Q.
Proof.
  intros Hh H. unfold coverage.
  set (R := inject_Z (Z.of_nat r)) in *.
  rewrite (Q.min_l y (y + h)) by lra.
  rewrite (Q.max_r y (y + h)) by lra.
  rewrite (Q.min_r (y + h) (R + 1)) by lra.
  rewrite (Q.max_l y R) by lra.
  rewrite Q.max_l by lra. reflexivity.
Qed.

Lemma rows_above_last_bin (data : list Z) (h : nat) (m : Z) (r : nat) :
  0 < m ->
  (inject_Z (Z.of_nat r) + 1
   <= inject_Z (Z.of_nat h)
      - (inject_Z (Z.of_nat (length data)) / inject_Z m) * inject_Z (Z.of_nat h)
      - 1)%Q ->
  ~ touched data h m r.
Proof.
  intros Hm Hrow (i & v & [Hi0 _] & Hv & _ & Hcov).
  apply lookup_lt_Some in Hv.
  assert (Hin : i + 1 <= Z.of_nat (length data)) by lia.
  pose proof (band_height_pos h m Hm) as Hbh.
  rewrite coverage_row_above in Hcov; [lra|lra|].
  unfold band_y, band_height in *.
  assert (HM : (0 < inject_Z m)%Q).
  { change 0%Q with (inject_Z 0). by rewrite <- Zlt_Qlt. }
  pose proof (inject_nat_nonneg h) as HH.
  rewrite Zle_Qle, inject_Z_plus in Hin. change (inject_Z 1) with 1%Q in Hin.
  set (H := inject_Z (Z.of_nat h)) in *.
  set (N := inject_Z (Z.of_nat (length data))) in *.
  set (I := inject_Z i) in *. set (M := inject_Z m) in *.
  assert (Hu : (0 <= H / M)%Q).
  { apply Qle_shift_div_l; [exact HM|]. lra. }
  assert (E1 : (I / M * H == I * (H / M))%Q) by (field; lra).
  assert (E2 : (N / M * H == N * (H / M))%Q) by (field; lra).
  rewrite E2 in Hrow. rewrite E1.
  set (u := (H / M)%Q) in *. nra.
Qed.

(** X4. Bins past the end of the analyser's array paint nothing: every
    pixel row of the new column that lies above the band of the last
    existing bin is black, whatever the data.  On a context whose Nyquist
    frequency is below [FREQ_MAX] this is the top part of the canvas. *)
Theorem bins_beyond_array_stay_black (f : Frame) (s : Live) (r : nat) :
  well_formed (ctx s) ->
  (2 <= width (ctx s))%nat -> (1 <= height (ctx s))%nat ->
  byte_data (dataArray f) ->
  0 < maxFreqIndex f ->
  (r < height (ctx s))%nat ->
  (inject_Z (Z.of_nat r) + 1
   <= inject_Z (Z.of_nat (height (ctx s)))
      - (inject_Z (bufferLength f) / inject_Z (maxFreqIndex f))
        * inject_Z (Z.of_nat (height (ctx s)))
      - 1)%Q ->
  exists s',
    renderLive Colormap.generateBirdSongColormap f s = Some (tt, s') /\
    pixel (bitmap (ctx s')) (Z.of_nat (width (ctx s)) - 1) (Z.of_nat r) = black.
Proof.
  intros Hwf HW HH Hbytes Hm Hr Hrow.
  destruct (renderLive_run _ f ColormapProps.colormap_length Hbytes s Hwf HW HH)
    as (s' & Hrun & Hw & Hh & Hb).
  exists s'. split; [exact Hrun|].
  replace (Z.of_nat (width (ctx s)) - 1)
    with (Z.of_nat (width (ctx s) - 1)) by lia.
  eapply pixel_lookup.
  - rewrite Hb, lookup_app_r by (rewrite length_drop; destruct Hwf; lia).
    rewrite length_drop. destruct Hwf as [-> _].
    rewrite Nat.sub_diag. reflexivity.
  - apply untouched_row; [apply seqZ_bounds| |by apply lookup_replicate_2].
    apply rows_above_last_bin; [exact Hm|exact Hrow].
Qed.

Lemma bins_beyond_array_stay_black_witness :
  exists s',
    renderLive Colormap.generateBirdSongColormap loud_narrowband_frame
      (mkLive tall_canvas None) = Some (tt, s') /\
    pixel (bitmap (ctx s')) (Z.of_nat 2 - 1) (Z.of_nat 104) = black.
Proof.
  apply (bins_beyond_array_stay_black loud_narrowband_frame
           (mkLive tall_canvas None) 104).
  - split; [reflexivity|]. apply Forall_replicate. apply length_replicate.
  - cbn. lia.
  - cbn. lia.
  - unfold byte_data, loud_narrowband_frame. cbn [dataArray].
    apply Forall_replicate. lia.
  - reflexivity.
  - cbn. lia.
  - vm_compute. discriminate.
Defined.

Lemma colormap_bytes : Forall valid_rgb generateBirdSongColormap.
Proof.
  assert (H : forallb byte_triple generateBirdSongColormap = true)
    by (vm_compute; reflexivity).
  rewrite forallb_forall in H. apply Forall_forall. intros [[r g] b] Hin.
  apply list_elem_of_In in Hin. specialize (H _ Hin). unfold byte_triple in H.
  repeat (apply andb_prop in H as [H ?]). unfold valid_rgb. lia.
Qed.

Lemma unit_of_byte (z : Z) : 0 <= z <= 255 -> unit_interval (inject_Z z / 255).
Proof.
  intros [H0 H1]. rewrite Zle_Qle in H0, H1.
  change (inject_Z 0) with 0%Q in H0. change (inject_Z 255) with 255%Q in H1.
  split.
  - apply Qle_shift_div_l; lra.
  - apply Qle_shift_div_r; lra.
Qed.

(** X5. The colour map handed to the spectrogram plug-in has 256 RGBA
    entries, every colour component in [0,1] and alpha 1; entry [i] is the
    table entry [i] divided by 255. *)
Theorem spectrogram_colorMap_normalised :
  length (colorMap spectrogramOptions) = 256%nat /\
  Forall normalised (colorMap spectrogramOptions) /\
  (forall (i : nat) r g b,
     generateBirdSongColormap !! i = Some (r, g, b) ->
     colorMap spectrogramOptions !! i
       = Some (inject_Z r / 255, inject_Z g / 255, inject_Z b / 255, 1)%Q).
Proof.
  unfold spectrogramOptions. cbn [colorMap]. split; [|split].
  - rewrite length_map. reflexivity.
  - apply Forall_forall. intros c Hc. apply list_elem_of_In, in_map_iff in Hc.
    destruct Hc as ([[r g] b] & <- & Hin).
    pose proof colormap_bytes as Hb. rewrite Forall_forall in Hb.
    apply list_elem_of_In in Hin. specialize (Hb _ Hin). cbn in Hb.
    destruct Hb as (Hr & Hg & Hbl). unfold normalised.
    repeat split; try (apply unit_of_byte; assumption).
  - intros i r g b Hi.
    change (map ?f ?l) with (f <$> l). by rewrite list_lookup_fmap, Hi.
Qed.

Lemma neighbours_zipped {A} (l : list A) (i : nat) (a b : A) :
  l !! i = Some a -> l !! S i = Some b -> In (a, b) (zip l (drop 1 l)).
Proof.
  intros Ha Hb. apply list_elem_of_In, list_elem_of_lookup. exists i.
  rewrite lookup_zip_with, Ha. cbn. rewrite lookup_drop. cbn. by rewrite Hb.
Qed.

(** X6. No two magnitudes share a colour, neighbouring entries differ by
    at most 4 in every channel, and red and green never decrease with the
    magnitude. *)
Theorem colormap_distinct_and_smooth :
  NoDup generateBirdSongColormap /\
  (forall (i : nat) a b,
     generateBirdSongColormap !! i = Some a ->
     generateBirdSongColormap !! S i = Some b ->
     channel_step a b <= 4 /\ a.1.1 <= b.1.1 /\ a.1.2 <= b.1.2).
Proof.
  split.
  - apply (bool_decide_unpack _). vm_compute. exact I.
  - assert (H : forallb smooth_pair
                  (zip generateBirdSongColormap (drop 1 generateBirdSongColormap))
                = true) by (vm_compute; reflexivity).
    rewrite forallb_forall in H. intros i a b Ha Hb.
    specialize (H _ (neighbours_zipped _ i a b Ha Hb)). unfold smooth_pair in H.
    repeat (apply andb_prop in H as [H ?]). cbn [fst snd] in *. lia.
Qed.

Lemma spectrogram_colorMap_normalised_witness :
  colorMap spectrogramOptions !! 102%nat
  = Some (inject_Z 140 / 255, inject_Z 0 / 255, inject_Z 160 / 255, 1)%Q.
Proof.
  apply (proj2 (proj2 spectrogram_colorMap_normalised) 102%nat 140 0 160).
  reflexivity.
Defined.

Lemma colormap_distinct_and_smooth_witness :
  channel_step (0, 0, 0) (1, 0, 2) <= 4 /\ 0 <= 1 /\ 0 <= 0.
Proof.
  apply (proj2 colormap_distinct_and_smooth 0%nat (0, 0, 0) (1, 0, 2));
    reflexivity.
Defined.

End LiveEffectProps.

(** ** More of the calibration sweep *)

Module SweepProps.
Import Calibration CalibrationProps Sweep.

Lemma ramp_events_lookup (st : Q) (j : nat) e :
  ramp_events st !! j = Some e ->
  (j < 60)%nat /\
  e = (10 + 200 * Z.of_nat j, (st + inject_Z (Z.of_nat j) * (1 # 20))%Q).
Proof.
  unfold ramp_events. rewrite list_lookup_fmap.
  destruct (seqZ 0 60 !! j) as [z|] eqn:Hz; [|discriminate].
  apply lookup_seqZ in Hz as [-> Hlt]. cbn. intros [= <-].
  split; [lia|]. rewrite !Z.add_0_l. reflexivity.
Qed.

(** X7. The ramp a sweep schedules is strictly increasing in frequency
    and in time; every frequency lies between 10 Hz and [FREQ_MAX], and
    every step is scheduled no earlier than the oscillator starts and
    before it stops. *)
Theorem ramp_is_monotone (p : Player) (c : AudioContext) :
  audioCtxRef p = Some c -> isCalibrating p = false -> analyzerRef p = true ->
  exists c1 o st et,
    audioCtxRef (runLiveCalibration p) = Some c1 /\
    oscillators c1 !! nextNode c = Some o /\
    startAt o = Some st /\ stopAt o = Some et /\
    Forall (fun e => 10 <= fst e <= FREQ_MAX /\
                     (st <= snd e)%Q /\ (snd e < et)%Q) (frequencyEvents o) /\
    (forall (j k : nat) e1 e2,
       (j < k)%nat ->
       frequencyEvents o !! j = Some e1 -> frequencyEvents o !! k = Some e2 ->
       fst e1 < fst e2 /\ (snd e1 < snd e2)%Q).
Proof.
  intros Hc Hcal Han.
  rewrite (runLiveCalibration_start p c Hc Hcal Han). cbv zeta.
  eexists _, _, _, _. split; [reflexivity|]. cbn [oscillators].
  split; [apply lookup_insert_eq|]. cbn [startAt stopAt frequencyEvents].
  split; [reflexivity|]. split; [reflexivity|]. split.
  - apply Forall_forall. intros e He. apply list_elem_of_lookup in He as [j Hj].
    apply ramp_events_lookup in Hj as [Hlt ->]. cbn [fst snd].
    unfold FREQ_MAX. split; [lia|].
    assert (H0 : (0 <= inject_Z (Z.of_nat j))%Q) by apply inject_nat_nonneg.
    assert (H1 : (inject_Z (Z.of_nat j) <= 59)%Q).
    { change 59%Q with (inject_Z 59). rewrite <- Zle_Qle. lia. }
    change (inject_Z 60) with 60%Q.
    set (J := inject_Z (Z.of_nat j)) in *. split; lra.
  - intros j k e1 e2 Hjk H1 H2.
    apply ramp_events_lookup in H1 as [_ ->].
    apply ramp_events_lookup in H2 as [_ ->]. cbn [fst snd].
    split; [lia|].
    assert (H : (inject_Z (Z.of_nat j) < inject_Z (Z.of_nat k))%Q).
    { rewrite <- Zlt_Qlt. lia. }
    set (J := inject_Z (Z.of_nat j)) in *. set (K := inject_Z (Z.of_nat k)) in *.
    lra.
Qed.




Lemma nodes_fresh_handle e p : nodes_fresh p -> nodes_fresh (handle e p).
Proof.
  intros Hf. destruct e as [|id]; cbn [handle].
  - destruct (audioCtxRef p) as [c|] eqn:Hc.
    2:{ replace (runLiveCalibration p) with p; [exact Hf|].
        unfold runLiveCalibration. by rewrite Hc. }
    destruct (isCalibrating p) eqn:Hcal.
    { replace (runLiveCalibration p) with p; [exact Hf|].
      unfold runLiveCalibration. by rewrite Hc, Hcal. }
    destruct (analyzerRef p) eqn:Han.
    2:{ replace (runLiveCalibration p) with p; [exact Hf|].
        unfold runLiveCalibration. by rewrite Hc, Hcal, Han. }
    unfold nodes_fresh in *. rewrite Hc in Hf.
    rewrite (runLiveCalibration_start p c Hc Hcal Han). cbv zeta.
    cbn [audioCtxRef oscillators nextNode]. intros k o Hk.
    destruct (decide (k = nextNode c)) as [->|Hne]; [lia|].
    rewrite lookup_insert_ne in Hk by done. specialize (Hf k o Hk). lia.
  - unfold nodes_fresh in *. by rewrite fire_keeps_context.
Qed.

Lemma reachable_nodes_fresh p : reachable p -> nodes_fresh p.
Proof.
  induction 1 as [|p e _ IH]; [|by apply nodes_fresh_handle].
  intros k o Hk. cbn in Hk. by rewrite lookup_empty in Hk.
Qed.

(** X9. Every sweep gets an oscillator of its own: whatever was scheduled
    on an oscillator is still there, unchanged, after any later event,
    including later sweeps. *)
Theorem schedules_persist (p : Player) (e : Event) (c : AudioContext)
  (k : nat) (o : Osc) :
  reachable p -> audioCtxRef p = Some c -> oscillators c !! k = Some o ->
  exists c',
    audioCtxRef (handle e p) = Some c' /\ oscillators c' !! k = Some o.
Proof.
  intros Hr Hc Hk. pose proof (reachable_nodes_fresh p Hr) as Hf.
  unfold nodes_fresh in Hf. rewrite Hc in Hf. specialize (Hf k o Hk).
  destruct e as [|id]; cbn [handle].
  - destruct (isCalibrating p) eqn:Hcal.
    { exists c. unfold runLiveCalibration. by rewrite Hc, Hcal. }
    destruct (analyzerRef p) eqn:Han.
    2:{ exists c. unfold runLiveCalibration. by rewrite Hc, Hcal, Han. }
    rewrite (runLiveCalibration_start p c Hc Hcal Han). cbv zeta.
    eexists. split; [reflexivity|]. cbn [oscillators].
    rewrite lookup_insert_ne by lia. exact Hk.
  - exists c. by rewrite fire_keeps_context.
Qed.

Lemma ramp_is_monotone_witness :
  exists c1 o st et,
    audioCtxRef (runLiveCalibration mounted) = Some c1 /\
    oscillators c1 !! nextNode fresh_context = Some o /\
    startAt o = Some st /\ stopAt o = Some et /\
    Forall (fun e => 10 <= fst e <= FREQ_MAX /\
                     (st <= snd e)%Q /\ (snd e < et)%Q) (frequencyEvents o) /\
    (forall (j k : nat) e1 e2,
       (j < k)%nat ->
       frequencyEvents o !! j = Some e1 -> frequencyEvents o !! k = Some e2 ->
       fst e1 < fst e2 /\ (snd e1 < snd e2)%Q).
Proof.
  apply (ramp_is_monotone mounted fresh_context); reflexivity.
Defined.


Lemma schedules_persist_witness :
  exists c',
    audioCtxRef (handle (Fire 1) started) = Some c' /\
    oscillators c' !! 0%nat
    = Some (mkOsc "sine" (ramp_events (0 + (1 # 10))) (Some (0 + (1 # 10))%Q)
              (Some (0 + (1 # 10) + inject_Z 60 * (1 # 20))%Q)).
Proof.
  eapply (schedules_persist started (Fire 1)).
  - apply (reach_step mounted Click), reach_mounted.
  - unfold started.
    rewrite (runLiveCalibration_start mounted fresh_context); reflexivity.
  - cbn [oscillators nextNode fresh_context]. apply lookup_insert_eq.
Defined.

End SweepProps.

(** ** The application shell *)

Module AppProps.
Import Types LocalService LocalServiceProps App.
Local Open Scope Z_scope.

Lemma findIndex_from_found (l : list AudioFile) : forall (k : Z) (i : nat) a,
  NoDup (map id l) -> l !! i = Some a ->
  findIndex_from k l (id a) = k + Z.of_nat i.
Proof.
  induction l as [|f l IH]; intros k i a Hnd Hi; [done|].
  cbn [map] in Hnd. apply NoDup_cons in Hnd as [Hnotin Hnd].
  destruct i as [|i]; cbn in Hi.
  - injection Hi as ->. cbn [findIndex_from]. rewrite String.eqb_refl. lia.
  - cbn [findIndex_from].
    destruct (String.eqb_spec (id f) (id a)) as [E|_].
    + exfalso. apply Hnotin. rewrite E.
      apply list_elem_of_In, in_map, list_elem_of_In.
      by eapply list_elem_of_lookup_2.
    + rewrite (IH (k + 1) i a Hnd Hi). lia.
Qed.

Lemma findIndex_found (l : list AudioFile) (i : nat) a :
  NoDup (map id l) -> l !! i = Some a -> findIndex l (id a) = Z.of_nat i.
Proof. intros. unfold findIndex. by rewrite (findIndex_from_found l 0 i a). Qed.

Lemma item_nat (l : list AudioFile) (i : nat) : item l (Z.of_nat i) = l !! i.
Proof.
  unfold item. destruct (Z.ltb_spec (Z.of_nat i) 0); [lia|]. by rewrite Nat2Z.id.
Qed.

(** Where Next and Prev lead from position [i] of a library without
    duplicate ids. *)
Lemma next_from (s : State) (i : nat) cur :
  NoDup (map id (files s)) -> currentTrack s = Some cur ->
  files s !! i = Some cur ->
  handleNextTrack s
  = setCurrentTrack (files s !! ((i + 1) mod length (files s))%nat) s.
Proof.
  intros Hnd Hcur Hi. unfold handleNextTrack. rewrite Hcur.
  destruct (files s) as [|f l] eqn:Hf; [done|].
  rewrite (findIndex_found _ i cur Hnd Hi).
  rewrite Z.rem_mod_nonneg by (cbn [length]; lia).
  replace (Z.of_nat i + 1) with (Z.of_nat (i + 1)) by lia.
  rewrite <- Nat2Z.inj_mod, item_nat. reflexivity.
Qed.

Lemma prev_from (s : State) (i : nat) cur :
  NoDup (map id (files s)) -> currentTrack s = Some cur ->
  files s !! i = Some cur ->
  handlePrevTrack s
  = setCurrentTrack
      (files s !! ((i + length (files s) - 1) mod length (files s))%nat) s.
Proof.
  intros Hnd Hcur Hi. unfold handlePrevTrack. rewrite Hcur.
  pose proof (lookup_lt_Some _ _ _ Hi) as Hlt.
  destruct (files s) as [|f l] eqn:Hf; [done|].
  rewrite (findIndex_found _ i cur Hnd Hi).
  rewrite Z.rem_mod_nonneg by (cbn [length] in *; lia).
  replace (Z.of_nat i - 1 + Z.of_nat (length (f :: l)))
    with (Z.of_nat (i + length (f :: l) - 1)) by (cbn [length] in *; lia).
  rewrite <- Nat2Z.inj_mod, item_nat. reflexivity.
Qed.

(** X10. In a library without duplicate ids, Next and Prev move the
    selection to a file of the library and undo each other: Prev after
    Next, and Next after Prev, come back to the current track. *)
Theorem next_prev_round_trip (s : State) (cur : AudioFile) :
  NoDup (map id (files s)) ->
  currentTrack s = Some cur -> In cur (files s) ->
  currentTrack (handlePrevTrack (handleNextTrack s)) = Some cur /\
  currentTrack (handleNextTrack (handlePrevTrack s)) = Some cur /\
  (exists t, currentTrack (handleNextTrack s) = Some t /\ In t (files s)) /\
  (exists t, currentTrack (handlePrevTrack s) = Some t /\ In t (files s)).
Proof.
  intros Hnd Hcur Hin.
  apply list_elem_of_In, list_elem_of_lookup in Hin as [i Hi].
  pose proof (lookup_lt_Some _ _ _ Hi) as Hlt.
  set (n := length (files s)) in *.
  assert (Hn : (0 < n)%nat) by lia.
  destruct (lookup_lt_is_Some_2 (files s) ((i + 1) mod n)) as [a Ha].
  { apply Nat.mod_upper_bound. lia. }
  destruct (lookup_lt_is_Some_2 (files s) ((i + n - 1) mod n)) as [b Hb].
  { apply Nat.mod_upper_bound. lia. }
  rewrite (next_from s i cur Hnd Hcur Hi).
  rewrite (prev_from s i cur Hnd Hcur Hi). fold n. rewrite Ha, Hb.
  assert (E1 : (((i + 1) mod n + n - 1) mod n = i)%nat).
  { destruct (decide (i + 1 = n)%nat) as [E|E].
    - rewrite E, Nat.Div0.mod_same. replace (0 + n - 1)%nat with i by lia.
      by apply Nat.mod_small.
    - rewrite (Nat.mod_small (i + 1)) by lia.
      replace (i + 1 + n - 1)%nat with (i + 1 * n)%nat by lia.
      rewrite Nat.Div0.mod_add. by apply Nat.mod_small. }
  assert (E2 : (((i + n - 1) mod n + 1) mod n = i)%nat).
  { destruct (decide (i = 0)%nat) as [->|E].
    - replace (0 + n - 1)%nat with (n - 1)%nat by lia.
      rewrite (Nat.mod_small (n - 1)) by lia.
      replace (n - 1 + 1)%nat with n by lia. apply Nat.Div0.mod_same.
    - replace (i + n - 1)%nat with (i - 1 + 1 * n)%nat by lia.
      rewrite Nat.Div0.mod_add, (Nat.mod_small (i - 1)) by lia.
      replace (i - 1 + 1)%nat with i by lia. by apply Nat.mod_small. }
  split; [|split; [|split]].
  - rewrite (prev_from _ ((i + 1) mod n) a); cbn [files currentTrack setCurrentTrack];
      try done.
    fold n. by rewrite E1.
  - rewrite (next_from _ ((i + n - 1) mod n) b); cbn [files currentTrack setCurrentTrack];
      try done.
    fold n. by rewrite E2.
  - exists a. split; [reflexivity|].
    apply list_elem_of_In. by eapply list_elem_of_lookup_2.
  - exists b. split; [reflexivity|].
    apply list_elem_of_In. by eapply list_elem_of_lookup_2.
Qed.

Lemma processLocalFiles_accepts cmp uuids fl :
  Forall (fun a => is_mp3 (file a) = true) (processLocalFiles cmp uuids fl).
Proof.
  unfold processLocalFiles.
  eapply Permutation_Forall; [symmetry; apply sort_by_perm|].
  destruct (scan_files_spec uuids fl []) as [Hfiles _]. cbn [map app] in Hfiles.
  apply Forall_forall. intros a Ha.
  assert (Hin : In (file a) (List.filter is_mp3 fl)).
  { rewrite <- Hfiles. apply in_map. by apply list_elem_of_In. }
  apply filter_In in Hin. tauto.
Qed.

Lemma item_In (l : list AudioFile) (i : Z) t : item l i = Some t -> In t l.
Proof.
  unfold item. destruct (i <? 0); [done|]. intros H.
  apply list_elem_of_In. by eapply list_elem_of_lookup_2.
Qed.

Ltac state_fields :=
  unfold mode_invariant;
  cbn [setCurrentTrack files currentTrack micStream isLoading hasStarted
       capturing awaitingMic].

Lemma invariant_step cmp (s : State) (e : Event) :
  mode_invariant s -> offered s e -> mode_invariant (handle cmp e s).
Proof.
  intros Hinv Hoff. pose proof Hinv as Hinv0.
  destruct Hinv as (Hstart & Hmic & Hcur & Hlib & Hmp3 & Hload & Hwait & Hcap).
  destruct e as [sel uuids| |granted| |a| |]; cbn [handle offered] in *.
  - destruct Hoff as [Hst Hidle]. destruct (Hstart Hst) as (Hf & Hc & Hm).
    rewrite Hidle in Hload.
    unfold handleFileChange. destruct sel as [|firstFile sel']; [exact Hinv0|].
    pose proof (processLocalFiles_accepts cmp uuids (firstFile :: sel')) as Hacc.
    destruct (processLocalFiles cmp uuids (firstFile :: sel')) as [|a l] eqn:Hp;
      state_fields.
    + rewrite Hf, Hc, Hm in *. repeat split; try done; try congruence.
    + rewrite Hc. rewrite Hm in Hcap. repeat split; try done; try congruence.
  - destruct Hoff as [Hst Hidle]. destruct (Hstart Hst) as (Hf & Hc & Hm).
    unfold handleStartMic_request. state_fields.
    rewrite Hf, Hc, Hm in *. repeat split; try done.
  - destruct (Hstart (Hwait Hoff)) as (Hf & Hc & Hm).
    unfold handleStartMic_settle. destruct granted as [stream|]; state_fields.
    + rewrite Hc. rewrite Hm in Hcap. rewrite Hcap.
      repeat split; try done. by rewrite union_empty_r_L.
    + rewrite Hf, Hc, Hm in *. repeat split; try done; try congruence.
  - unfold resetLibrary. state_fields.
    repeat split; try done.
    destruct (micStream s) as [stream|]; [|exact Hcap].
    rewrite Hcap. apply difference_diag_L.
  - destruct Hoff as [Hst Hin]. state_fields.
    repeat split; intros; try done; try congruence; try (by apply Hlib);
      try (by apply Hwait).
    all: match goal with
         | H : micStream _ = Some _ |- _ =>
             destruct (Hmic _ H) as [Hf _]; rewrite Hf in Hin; destruct Hin
         end.
  - unfold handleNextTrack.
    destruct (currentTrack s) as [cur|] eqn:Hc.
    2:{ destruct (files s); exact Hinv0. }
    destruct (files s) as [|f l] eqn:Hf; [exact Hinv0|].
    state_fields. rewrite Hf.
    repeat split; intros; try done; try congruence;
      try (by eapply item_In); try (by apply Hwait);
      match goal with
      | H : micStream _ = Some _ |- _ => by destruct (Hmic _ H)
      end.
  - unfold handlePrevTrack.
    destruct (currentTrack s) as [cur|] eqn:Hc.
    2:{ destruct (files s); exact Hinv0. }
    destruct (files s) as [|f l] eqn:Hf; [exact Hinv0|].
    state_fields. rewrite Hf.
    repeat split; intros; try done; try congruence;
      try (by eapply item_In); try (by apply Hwait);
      match goal with
      | H : micStream _ = Some _ |- _ => by destruct (Hmic _ H)
      end.
Qed.

Lemma reachable_mode_invariant cmp (s : State) :
  reachable cmp s -> mode_invariant s.
Proof.
  induction 1 as [|s e _ IH Hoff]; [|by apply invariant_step].
  unfold mode_invariant, initial. cbn. repeat split; try done.
Qed.

(** X11. In every state the page can reach, file mode and microphone
    mode exclude each other: with a microphone stream the library is empty,
    nothing is selected and that stream is the only one still capturing;
    without one no microphone is left running (so none survives "Switch
    Mode"), a selected track is an MP3 file of the library, and the main
    screen has a non-empty library.  The start screen has neither library
    nor selection nor stream, and the page is loading exactly while the
    microphone request is outstanding. *)
Theorem modes_exclude_each_other cmp (s : State) :
  reachable cmp s ->
  (forall stream, micStream s = Some stream ->
     files s = [] /\ currentTrack s = None /\ capturing s = {[ stream ]}) /\
  (micStream s = None -> capturing s = ∅) /\
  (forall t, currentTrack s = Some t ->
     In t (files s) /\ is_mp3 (file t) = true /\ micStream s = None) /\
  (hasStarted s = true -> micStream s = None -> files s <> []) /\
  (hasStarted s = false ->
     files s = [] /\ currentTrack s = None /\ micStream s = None) /\
  (isLoading s = true <-> awaitingMic s = true).
Proof.
  intros Hr.
  destruct (reachable_mode_invariant cmp s Hr)
    as (Hstart & Hmic & Hcur & Hlib & Hmp3 & Hload & Hwait & Hcap).
  split; [|split; [|split; [|split; [|split]]]].
  - intros stream Hs. destruct (Hmic _ Hs) as [Hf Hc].
    rewrite Hs in Hcap. done.
  - intros Hs. by rewrite Hs in Hcap.
  - intros t Ht. pose proof (Hcur _ Ht) as Hin. split; [exact Hin|]. split.
    + rewrite Forall_forall in Hmp3. apply Hmp3. by apply list_elem_of_In.
    + destruct (micStream s) as [stream|] eqn:Hs; [|done].
      destruct (Hmic _ eq_refl) as [_ Hc]. congruence.
  - exact Hlib.
  - exact Hstart.
  - by rewrite Hload.
Qed.

Lemma processLocalFiles_empty cmp uuids fl :
  processLocalFiles cmp uuids fl = [] <-> List.filter is_mp3 fl = [].
Proof.
  unfold processLocalFiles.
  destruct (scan_files_spec uuids fl []) as [Hfiles _]. cbn [map app] in Hfiles.
  pose proof (sort_by_perm (fun a b => cmp (name a) (name b))
                (scan_files uuids fl [])) as Hperm.
  rewrite <- Hfiles. split.
  - intros E. rewrite E in Hperm. apply Permutation_nil in Hperm.
    by rewrite Hperm.
  - intros E. apply map_eq_nil in E. rewrite E in *.
    apply Permutation_sym, Permutation_nil in Hperm. exact Hperm.
Qed.

(** X12. Choosing a folder ends with the loading flag cleared and the
    folder name set.  Without any MP3 in it the library, the mode and the
    start screen stay as they were and the "No MP3 files" message is
    shown; with at least one MP3 the library becomes the scanner's result,
    file mode is entered and the error is cleared. *)
Theorem folder_selection_outcome cmp (selected : list DOM.File)
  (uuids : nat -> string) (s : State) :
  selected <> [] ->
  isLoading (handleFileChange cmp selected uuids s) = false /\
  is_Some (folderName (handleFileChange cmp selected uuids s)) /\
  (List.filter is_mp3 selected = [] ->
   files (handleFileChange cmp selected uuids s) = files s /\
   hasStarted (handleFileChange cmp selected uuids s) = hasStarted s /\
   micStream (handleFileChange cmp selected uuids s) = micStream s /\
   error (handleFileChange cmp selected uuids s)
     = Some "No MP3 files were found in the selected folder."%string) /\
  (List.filter is_mp3 selected <> [] ->
   files (handleFileChange cmp selected uuids s)
     = processLocalFiles cmp uuids selected /\
   files (handleFileChange cmp selected uuids s) <> [] /\
   hasStarted (handleFileChange cmp selected uuids s) = true /\
   micStream (handleFileChange cmp selected uuids s) = None /\
   error (handleFileChange cmp selected uuids s) = None).
Proof.
  intros Hne. destruct selected as [|f sel]; [done|].
  unfold handleFileChange.
  pose proof (processLocalFiles_empty cmp uuids (f :: sel)) as Hempty.
  destruct (processLocalFiles cmp uuids (f :: sel)) as [|a l] eqn:Hp;
    cbn [files hasStarted micStream error isLoading folderName].
  - split; [reflexivity|]. split; [by eexists|]. split; [done|].
    intros Hsome. destruct Hsome. by apply Hempty.
  - split; [reflexivity|]. split; [by eexists|]. split; [|done].
    intros Hnone. apply Hempty in Hnone. discriminate.
Qed.

Lemma folder_selection_outcome_witness :
  files (handleFileChange code_unit_compare sample_files sample_uuids initial)
    = processLocalFiles code_unit_compare sample_uuids sample_files /\
  hasStarted (handleFileChange code_unit_compare sample_files sample_uuids initial)
    = true.
Proof.
  destruct (folder_selection_outcome code_unit_compare sample_files sample_uuids
              initial) as (_ & _ & _ & H).
  - discriminate.
  - destruct H as (H1 & _ & H2 & _); [discriminate|]. by split.
Defined.

Lemma next_prev_round_trip_witness :
  currentTrack (handlePrevTrack (handleNextTrack sample_playing))
    = currentTrack sample_playing /\
  currentTrack (handleNextTrack (handlePrevTrack sample_playing))
    = currentTrack sample_playing.
Proof.
  destruct (next_prev_round_trip sample_playing
              (mkAudioFile "uuid-2" "lark.mp3" "1024" "audio/mpeg"
                 (DOM.mkFile "lark.mp3" 1024 "audio/mpeg" "birds/lark.mp3")
                 "birds/lark.mp3")) as (H1 & H2 & _).
  - apply (bool_decide_unpack _). vm_compute. exact I.
  - reflexivity.
  - left. reflexivity.
  - split; [exact H1|exact H2].
Defined.

Lemma modes_exclude_each_other_witness :
  files sample_live = [] /\ currentTrack sample_live = None /\
  capturing sample_live = {[ 7%nat ]}.
Proof.
  apply (modes_exclude_each_other code_unit_compare sample_live).
  - apply (reach_step code_unit_compare _ (MicSettled (Some 7%nat))).
    + apply (reach_step code_unit_compare initial StartMic).
      * apply reach_initial.
      * split; reflexivity.
    + reflexivity.
  - reflexivity.
Defined.

End AppProps.

(** ** The track list *)

Module SidebarProps.
Import Types LocalService LocalServiceProps Sidebar.
Local Open Scope string_scope.
Local Open Scope Z_scope.

Lemma startsWith_spec s p : startsWith s p = true <-> exists t, s = p ++ t.
Proof.
  revert s. induction p as [|c p IH]; intros s.
  - split; [intros _; by exists s|]. intros _. by destruct s.
  - destruct s as [|d s]; cbn [startsWith].
    + split; [done|]. intros [t Ht]. rewrite append_cons in Ht. discriminate.
    + rewrite andb_true_iff, Ascii.eqb_eq, IH. split.
      * intros [-> [t ->]]. exists t. by rewrite append_cons.
      * intros [t Ht]. rewrite append_cons in Ht. injection Ht as -> ->.
        split; [reflexivity|by exists t].
Qed.

Lemma includes_spec s sub :
  includes s sub = true <-> exists a b, s = a ++ sub ++ b.
Proof.
  induction s as [|d s IH].
  - cbn [includes]. rewrite orb_false_r, startsWith_spec. split.
    + intros [t Ht]. by exists "", t.
    + intros (a & b & H). destruct a as [|c a].
      * rewrite append_empty in H. by exists b.
      * rewrite append_cons in H. discriminate.
  - cbn [includes]. rewrite orb_true_iff, startsWith_spec, IH. split.
    + intros [[t Ht]|(a & b & ->)].
      * by exists "", t.
      * exists (String d a), b. by rewrite append_cons.
    + intros (a & b & H). destruct a as [|c a].
      * left. rewrite append_empty in H. by exists b.
      * right. rewrite append_cons in H. injection H as -> ->. by exists a, b.
Qed.

Lemma append_assoc_string (a b c : string) : (a ++ b) ++ c = a ++ b ++ c.
Proof.
  induction a as [|x a IH]; [reflexivity|].
  rewrite !append_cons. by rewrite IH.
Qed.

Lemma append_empty_r (a : string) : a ++ "" = a.
Proof. induction a as [|x a IH]; [reflexivity|]. by rewrite append_cons, IH. Qed.

Lemma includes_empty s : includes s "" = true.
Proof. apply includes_spec. exists "", s. reflexivity. Qed.

Lemma includes_widen s u q v :
  includes s (u ++ q ++ v) = true -> includes s q = true.
Proof.
  rewrite !includes_spec. intros (a & b & ->).
  exists (a ++ u), (v ++ b).
  by rewrite !append_assoc_string.
Qed.

Lemma filter_filter_impl {A} (P Q : A -> bool) (l : list A) :
  (forall x, Q x = true -> P x = true) ->
  List.filter Q (List.filter P l) = List.filter Q l.
Proof.
  intros H. induction l as [|x l IH]; [reflexivity|]. cbn [List.filter].
  destruct (P x) eqn:HP.
  - cbn [List.filter]. destruct (Q x); by rewrite IH.
  - destruct (Q x) eqn:HQ; [|exact IH]. rewrite (H x HQ) in HP. discriminate.
Qed.

Lemma filter_sublist {A} (P : A -> bool) (l : list A) :
  sublist (List.filter P l) l.
Proof.
  induction l as [|x l IH]; [constructor|]. cbn [List.filter].
  destruct (P x); by constructor.
Qed.

Lemma filter_all {A} (P : A -> bool) (l : list A) :
  (forall x, P x = true) -> List.filter P l = l.
Proof.
  intros H. induction l as [|x l IH]; [reflexivity|].
  cbn [List.filter]. by rewrite H, IH.
Qed.

Lemma is_ascii_app (a b : string) :
  is_ascii (a ++ b) = is_ascii a && is_ascii b.
Proof.
  induction a as [|c a IH]; [reflexivity|].
  rewrite append_cons. cbn [is_ascii]. by rewrite IH, andb_assoc.
Qed.

(** On ASCII names and an ASCII query the host's lower-casing can be
    replaced by the A-Z mapping. *)
Lemma filteredFiles_ascii lower (files : list AudioFile) (q : string) :
  ascii_lowering lower ->
  Forall (fun a => is_ascii (name a) = true) files ->
  is_ascii q = true ->
  filteredFiles lower files q = filteredFiles toLowerCase files q.
Proof.
  intros Hlow Hfiles Hq. unfold filteredFiles.
  induction Hfiles as [|a l Ha _ IH]; [reflexivity|].
  cbn [List.filter]. by rewrite IH, (Hlow _ Ha), (Hlow _ Hq).
Qed.

Lemma filter_Forall {A} (P : A -> Prop) (f : A -> bool) (l : list A) :
  Forall P l -> Forall P (List.filter f l).
Proof.
  induction 1 as [|x l Hx _ IH]; [constructor|]. cbn [List.filter].
  destruct (f x); [by constructor|exact IH].
Qed.

Lemma narrowing_ascii (files : list AudioFile) (u q v : string) :
  filteredFiles toLowerCase files (u ++ q ++ v)
  = filteredFiles toLowerCase (filteredFiles toLowerCase files q) (u ++ q ++ v).
Proof.
  unfold filteredFiles. symmetry. apply filter_filter_impl. intros a.
  rewrite !toLowerCase_app. apply includes_widen.
Qed.

(** X13. For file names and queries written in ASCII, where the host's
    lower-casing is the A-Z mapping: the empty query shows the whole
    library, and extending the query on either side only ever removes
    entries, the longer query's result being the same filter applied to
    the shorter query's result. *)
Theorem filter_narrows (lower : string -> string) (files : list AudioFile)
  (u q v : string) :
  ascii_lowering lower ->
  Forall (fun a => is_ascii (name a) = true) files ->
  is_ascii (u ++ q ++ v) = true ->
  filteredFiles lower files "" = files /\
  filteredFiles lower files (u ++ q ++ v)
    = filteredFiles lower (filteredFiles lower files q) (u ++ q ++ v) /\
  sublist (filteredFiles lower files (u ++ q ++ v)) (filteredFiles lower files q).
Proof.
  intros Hlow Hfiles Hall. pose proof Hall as Huqv.
  rewrite !is_ascii_app, !andb_true_iff in Hall. destruct Hall as (_ & Hq & _).
  assert (Hn : filteredFiles lower files (u ++ q ++ v)
               = filteredFiles lower (filteredFiles lower files q) (u ++ q ++ v)).
  { rewrite (filteredFiles_ascii lower files q) by assumption.
    rewrite (filteredFiles_ascii lower files (u ++ q ++ v)) by assumption.
    rewrite (filteredFiles_ascii lower (filteredFiles toLowerCase files q));
      [apply narrowing_ascii|exact Hlow| |exact Huqv].
    by apply filter_Forall. }
  split; [|split].
  - rewrite (filteredFiles_ascii lower files "") by done.
    unfold filteredFiles. apply filter_all. intros a. apply includes_empty.
  - exact Hn.
  - rewrite Hn. apply filter_sublist.
Qed.

Lemma filter_narrows_witness :
  filteredFiles toLowerCase
    (processLocalFiles code_unit_compare sample_uuids sample_files) "WREN"
  = filteredFiles toLowerCase
      (filteredFiles toLowerCase
         (processLocalFiles code_unit_compare sample_uuids sample_files) "RE")
      "WREN".
Proof.
  destruct (filter_narrows toLowerCase
              (processLocalFiles code_unit_compare sample_uuids sample_files)
              "W" "RE" "N") as (_ & H & _).
  - intros s _. reflexivity.
  - apply (bool_decide_unpack _). vm_compute. exact I.
  - reflexivity.
  - exact H.
Defined.

Lemma digit_value_char (m : N) :
  (m < 10)%N -> digit_value (pretty_N_char m) = Some (Z.of_N m).
Proof.
  intros H.
  assert (m = 0 \/ m = 1 \/ m = 2 \/ m = 3 \/ m = 4 \/ m = 5 \/ m = 6
          \/ m = 7 \/ m = 8 \/ m = 9)%N as Hm by lia.
  repeat (destruct Hm as [->|Hm]; [reflexivity|]). by subst.
Qed.

(** Reading back the digits [pretty_N_go] writes in front of [s]. *)
Lemma parse_pretty_go (x : N) :
  (0 < x)%N ->
  exists k : Z, 0 <= k /\ forall acc s,
    parse_digits digit_value 10 acc (pretty_N_go x s)
    = parse_digits digit_value 10 (Some (default 0 acc * 10 ^ k + Z.of_N x)) s.
Proof.
  induction (N.lt_wf_0 x) as [x _ IH]. intros Hx.
  assert (Hmod : (x `mod` 10 < 10)%N) by (apply N.mod_lt; lia).
  pose proof (N.div_mod x 10 ltac:(lia)) as E.
  destruct (decide (x `div` 10 = 0)%N) as [Hz|Hnz].
  - exists 1. split; [lia|]. intros acc s. rewrite pretty_N_go_step by done.
    rewrite Hz, pretty_N_go_0. cbn [parse_digits].
    rewrite digit_value_char by done. do 2 f_equal.
    rewrite Z.pow_1_r. rewrite Hz in E.
    assert (E' : (x `mod` 10 = x)%N) by lia. by rewrite E'.
  - destruct (IH (x `div` 10)%N) as (k & Hk0 & Hk).
    { apply N.div_lt; lia. }
    { lia. }
    exists (k + 1). split; [lia|]. intros acc s.
    rewrite pretty_N_go_step by done.
    rewrite Hk. cbn [parse_digits]. rewrite digit_value_char by done.
    cbn [default from_option id]. do 2 f_equal.
    rewrite Z.pow_add_r, Z.pow_1_r by lia.
    assert (E' : Z.of_N x = 10 * Z.of_N (x `div` 10) + Z.of_N (x `mod` 10)) by lia.
    rewrite E'. unfold Datatypes.id. ring.
Qed.

(** The first character [pretty_N_go] writes is a digit from 1 to 9. *)
Lemma pretty_go_head (x : N) (s : string) :
  (0 < x)%N ->
  exists m t, (1 <= m <= 9)%N /\ pretty_N_go x s = String (pretty_N_char m) t.
Proof.
  revert s. induction (N.lt_wf_0 x) as [x _ IH]. intros s Hx.
  rewrite pretty_N_go_step by done.
  pose proof (N.div_mod x 10 ltac:(lia)) as E.
  assert (Hmod : (x `mod` 10 < 10)%N) by (apply N.mod_lt; lia).
  destruct (decide (x `div` 10 = 0)%N) as [Hz|Hnz].
  - rewrite Hz, pretty_N_go_0. exists (x `mod` 10)%N, s.
    split; [|reflexivity]. rewrite Hz in E. lia.
  - apply IH; [apply N.div_lt; lia|lia].
Qed.

(** Reading a size back: [parseInt] inverts the decimal rendering of a
    non-negative integer. *)
Theorem parseInt_pretty (n : Z) : 0 <= n -> parseInt (pretty n) = Some n.
Proof.
  intros Hn. destruct n as [|x|x]; [reflexivity| |lia].
  change (pretty (Z.pos x)) with (pretty_N_go (N.pos x) "").
  destruct (pretty_go_head (N.pos x) "" ltac:(lia)) as (m & t & Hm & Ht).
  destruct (parse_pretty_go (N.pos x) ltac:(lia)) as (k & Hk0 & Hk).
  specialize (Hk None ""). cbn [parse_digits default from_option id] in Hk.
  rewrite Z.mul_0_l, Z.add_0_l in Hk.
  change (Z.of_N (N.pos x)) with (Z.pos x) in Hk.
  rewrite <- Hk. rewrite Ht.
  assert (m = 1 \/ m = 2 \/ m = 3 \/ m = 4 \/ m = 5 \/ m = 6
          \/ m = 7 \/ m = 8 \/ m = 9)%N as Hcases by lia.
  repeat (destruct Hcases as [->|Hcases]; [reflexivity|]). by subst.
Qed.

(** X14. For an entry made by the scanner, with a size in the range of
    exact integers, the side bar reads the stored size string back to the
    exact byte count and shows the size in MB with two decimals, within
    0.005 of the true value. *)
Theorem sidebar_size_label (a : AudioFile) :
  faithful a -> 0 <= DOM.size (file a) < 2 ^ 53 ->
  parseInt (size a) = Some (DOM.size (file a)) /\
  sizeMB a
    = (pretty (Math_round (inject_Z (DOM.size (file a)) / 1024 / 1024 * 100) / 100)
       ++ "."
       ++ two_digits
            (Math_round (inject_Z (DOM.size (file a)) / 1024 / 1024 * 100) mod 100))%string /\
  (Qabs (inject_Z (Math_round (inject_Z (DOM.size (file a)) / 1024 / 1024 * 100)) / 100
         - inject_Z (DOM.size (file a)) / 1024 / 1024) <= 1 # 200)%Q.
Proof.
  intros [_ Hsize] [Hn _].
  assert (Hp : parseInt (size a) = Some (DOM.size (file a))).
  { rewrite Hsize. by apply parseInt_pretty. }
  set (x := (inject_Z (DOM.size (file a)) / 1024 / 1024)%Q).
  assert (Hx : (0 <= x)%Q).
  { unfold x. rewrite Zle_Qle in Hn. change (inject_Z 0) with 0%Q in Hn.
    apply Qle_shift_div_l; [reflexivity|]. rewrite Qmult_0_l.
    apply Qle_shift_div_l; [reflexivity|]. by rewrite Qmult_0_l. }
  split; [exact Hp|]. split.
  - unfold sizeMB. rewrite Hp. fold x. unfold toFixed2.
    destruct (Qlt_le_dec x 0) as [Hneg|_]; [lra|].
    rewrite append_empty.
    rewrite (Math_round_comp (Qabs x * 100) (x * 100)); [reflexivity|].
    by rewrite Qabs_pos.
  - destruct (Math_round_nearest (x * 100)) as [H1 H2].
    set (h := inject_Z (Math_round (x * 100))) in *.
    apply Qabs_Qle_condition. split.
    + apply Qle_minus_iff. 
      assert (E : (h / 100 - x + - - (1 # 200) == (h + (1 # 2) - x * 100) / 100)%Q)
        by field.
      rewrite E. apply Qle_shift_div_l; [reflexivity|]. lra.
    + apply Qle_minus_iff.
      assert (E : ((1 # 200) + - (h / 100 - x) == (x * 100 - (h - (1 # 2))) / 100)%Q)
        by field.
      rewrite E. apply Qle_shift_div_l; [reflexivity|]. lra.
Qed.

Lemma sidebar_size_label_witness :
  sizeMB (to_audio "uuid-0" (DOM.mkFile "wren.mp3" 3500000 "" "")) = "3.34"%string.
Proof.
  destruct (sidebar_size_label
              (to_audio "uuid-0" (DOM.mkFile "wren.mp3" 3500000 "" "")))
    as (_ & H & _).
  - split; reflexivity.
  - cbn. lia.
  - rewrite H. vm_compute. reflexivity.
Defined.

End SidebarProps.

(** ** Snapshots and the scanner in the shell *)

Module ShellProps.
Import Canvas Types LocalService LocalServiceProps Snapshot.
Local Open Scope string_scope.

Lemma append_inj_suffix (a b t : string) : a ++ t = b ++ t -> a = b.
Proof.
  revert b. induction a as [|x a IH]; intros [|y b] H.
  - reflexivity.
  - apply (f_equal String.length) in H.
    rewrite append_empty, append_cons in H. cbn [String.length] in H.
    rewrite length_app_string in H. lia.
  - apply (f_equal String.length) in H.
    rewrite append_empty, append_cons in H. cbn [String.length] in H.
    rewrite length_app_string in H. lia.
  - rewrite !append_cons in H. injection H as -> H. f_equal. by apply IH.
Qed.

(** X15. Two snapshots of the same view taken at different millisecond
    timestamps get different file names. *)
Theorem snapshot_names_distinct (v : View) (c : Context2D) (t1 t2 : Z) :
  targetCanvas v = Some c ->
  map download (takeSnapshot v t1) = map download (takeSnapshot v t2) ->
  t1 = t2.
Proof.
  intros Hc. unfold takeSnapshot. rewrite Hc. cbn [map download].
  intros [= H].
  apply String.app_inj, String.app_inj, String.app_inj in H.
  apply append_inj_suffix in H. by apply (inj pretty).
Qed.

(** X16. In microphone mode no track is selected, so a snapshot of the
    live canvas is always named [spectrogram-live-<timestamp>.png]. *)
Theorem live_snapshot_name cmp (s : App.State) (stream : nat)
  (v : View) (c : Context2D) (t : Z) :
  App.reachable cmp s -> App.micStream s = Some stream ->
  track v = App.currentTrack s -> micStream v = true ->
  liveCanvasRef v = Some c ->
  takeSnapshot v t
  = [ mkDownload ("spectrogram-live-" ++ pretty t ++ ".png")
        (toDataURL c "image/png") ].
Proof.
  intros Hr Hmic Ht Hm Hc.
  destruct (AppProps.reachable_mode_invariant cmp s Hr) as (_ & Hx & _).
  destruct (Hx _ Hmic) as [_ Hcur].
  unfold takeSnapshot, targetCanvas, trackNameOrLive.
  rewrite Hm, Hc, Ht, Hcur. reflexivity.
Qed.
Lemma scan_ids uuids fl : forall acc,
  map id (scan_files uuids fl acc)
  = (map id acc
     ++ map uuids (seq (length acc) (length (List.filter is_mp3 fl))))%list.
Proof.
  induction fl as [|f fl IH]; intros acc; cbn [scan_files List.filter].
  - cbn. by rewrite app_nil_r.
  - destruct (is_mp3 f); [|apply IH].
    rewrite IH, map_app, length_app, <- app_assoc. cbn [map length seq id app].
    f_equal. f_equal. by rewrite Nat.add_1_r.
Qed.

(** X17. The k-th accepted file receives the k-th UUID drawn, so as long
    as the UUID source never repeats itself all tracks of the library have
    different ids. *)
Theorem track_ids_distinct cmp (uuids : nat -> string) (fl : list DOM.File) :
  (forall i j : nat, uuids i = uuids j -> i = j) ->
  NoDup (map id (processLocalFiles cmp uuids fl)) /\
  Permutation (map id (processLocalFiles cmp uuids fl))
    (map uuids (seq 0 (length (List.filter is_mp3 fl)))).
Proof.
  intros Hinj. unfold processLocalFiles.
  assert (Hp : Permutation
            (map id (sort_by (fun a b => cmp (name a) (name b))
                       (scan_files uuids fl [])))
            (map uuids (seq 0 (length (List.filter is_mp3 fl))))).
  { rewrite (Permutation_map id (sort_by_perm _ (scan_files uuids fl []))).
    by rewrite scan_ids. }
  split; [|exact Hp].
  apply NoDup_ListNoDup. rewrite Hp. apply NoDup_ListNoDup.
  apply (NoDup_fmap_2 (A := nat)); [exact Hinj|]. apply NoDup_seq.
Qed.

Lemma sort_by_sorted_id {A} (cmp : A -> A -> Z) (l : list A) :
  StronglySorted (fun a b => (cmp a b <= 0)%Z) l -> sort_by cmp l = l.
Proof.
  induction 1 as [|x l Hs IH Hall]; [reflexivity|].
  cbn [sort_by]. rewrite IH. destruct l as [|y l]; [reflexivity|].
  cbn [insert_by]. inversion Hall as [|? ? Hxy _]; subst.
  destruct (Z.ltb_spec 0 (cmp x y)); [lia|reflexivity].
Qed.

Lemma sorted_by_file (R : DOM.File -> DOM.File -> Prop) (l : list AudioFile) :
  StronglySorted R (map file l) ->
  StronglySorted (fun a b => R (file a) (file b)) l.
Proof.
  induction l as [|a l IH]; intros H; [constructor|].
  cbn [map] in H. inversion H as [|? ? Hs Hall]; subst.
  constructor; [by apply IH|].
  rewrite Forall_forall in Hall. apply Forall_forall. intros b Hb. apply Hall.
  apply list_elem_of_In, in_map, list_elem_of_In, Hb.
Qed.

(** X18. When the accepted files of the selection already come in
    ascending name order under a consistent collation, the scanner returns
    them in exactly that order: sorting does not reorder ties. *)
Theorem sorted_selection_keeps_order cmp (uuids : nat -> string)
  (fl : list DOM.File) :
  consistent cmp ->
  StronglySorted (fun f g => (cmp (DOM.name f) (DOM.name g) <= 0)%Z)
    (List.filter is_mp3 fl) ->
  map file (processLocalFiles cmp uuids fl) = List.filter is_mp3 fl.
Proof.
  intros _ Hs. unfold processLocalFiles.
  destruct (scan_files_spec uuids fl []) as [Hfiles Hfaith].
  cbn [map app] in Hfiles. rewrite <- Hfiles in Hs.
  rewrite sort_by_sorted_id; [exact Hfiles|].
  apply sorted_by_file in Hs.
  specialize (Hfaith ltac:(constructor)).
  revert Hs Hfaith. generalize (scan_files uuids fl []). intros l.
  induction 1 as [|a l Hs IH Hall]; intros Hf; [constructor|].
  apply Forall_cons in Hf as [[Ha _] Hf]. constructor; [by apply IH|].
  rewrite Forall_forall in Hall, Hf. apply Forall_forall. intros b Hb.
  destruct (Hf b Hb) as [Hbn _]. rewrite Ha, Hbn. by apply Hall.
Qed.

Lemma sample_uuids_inj (i j : nat) : sample_uuids i = sample_uuids j -> i = j.
Proof.
  unfold sample_uuids. intros H. apply String.app_inj in H.
  by apply (inj pretty).
Qed.

Lemma snapshot_names_distinct_witness :
  bool_decide (map download (takeSnapshot live_view 1700000000000)
               = map download (takeSnapshot live_view 1700000000001)) = false.
Proof.
  apply bool_decide_eq_false. intros H.
  apply (snapshot_names_distinct live_view (blank 2 2)) in H;
    [discriminate|reflexivity].
Defined.

Lemma live_snapshot_name_witness :
  takeSnapshot live_view 1700000000000
  = [ mkDownload "spectrogram-live-1700000000000.png"
        (toDataURL (blank 2 2) "image/png") ].
Proof.
  apply (live_snapshot_name code_unit_compare App.sample_live 7 live_view
           (blank 2 2) 1700000000000).
  - apply (App.reach_step code_unit_compare _ (App.MicSettled (Some 7%nat))).
    + apply (App.reach_step code_unit_compare App.initial App.StartMic).
      * apply App.reach_initial.
      * split; reflexivity.
    + reflexivity.
  - reflexivity.
  - reflexivity.
  - reflexivity.
  - reflexivity.
Defined.

Lemma track_ids_distinct_witness :
  NoDup (map id (processLocalFiles code_unit_compare sample_uuids sample_files)).
Proof.
  apply (track_ids_distinct code_unit_compare sample_uuids sample_files).
  exact sample_uuids_inj.
Defined.

Lemma sorted_selection_keeps_order_witness :
  map file (processLocalFiles code_unit_compare sample_uuids sorted_files)
  = List.filter is_mp3 sorted_files.
Proof.
  apply (sorted_selection_keeps_order code_unit_compare sample_uuids sorted_files).
  { exact code_unit_consistent. }
  vm_compute. repeat constructor; discriminate.
Defined.

End ShellProps.
